(** * cf-common: value-persistence strategies and the TaskLogger state machine

    A shallow embedding of the two JavaScript modules of the repository:

    - the Redis strategies ([RedisFlattenStrategy], [RedisSetStratry],
      [ChainRedisStrategy]), which decide how a logged value is written
      into a key/value store;
    - the Firebase [TaskLogger], which keeps the steps of one job, hands
      out step handles and latches the job closed on a fatal error.

    Mutable objects that the code shares by reference (the redis client,
    the caller's path stack, the step table, the closure variables
    [fatal], [finished] and [handler]) are fields of an explicit state
    that every operation takes and returns.  A JavaScript exception is an
    outcome of its own; the state that comes with it is the state at the
    point of the throw. *)

From Stdlib Require Import ZArith Ascii.
From stdpp Require Import gmap strings list.

(** ** Outcomes of a JavaScript call *)

(** What a call may throw: a [TypeError] of the language, a [CFError]
    that the code constructs and throws itself, or the [CFError] that
    the code gave to an ["error"] event and Node's emitter throws for
    want of a listener (its message template and argument). *)
Inductive exn : Type :=
| TypeError (msg : string)
| CFError (msg : string)
| EmittedError (message : string) (arg : option string).

Inductive outcome (A : Type) : Type :=
| Return (a : A)
| Throw (e : exn).

Arguments Return {A} a.
Arguments Throw {A} e.

(** ** JavaScript values *)

Module Js.

(** The values the strategies are asked to store.  An object is given by
    its own enumerable properties in the order [Object.keys] lists them
    (an array is the object whose keys are its indices). *)
#[warnings="-register-all"]
Inductive value : Type :=
| VUndefined
| VNull
| VBool (b : bool)
| VNum (n : Z)
| VStr (s : string)
| VObj (props : list (string * value)).

Inductive jstype : Type :=
| TUndefined | TObject | TBoolean | TNumber | TString.

#[export] Instance jstype_eq_dec : EqDecision jstype.
Proof. solve_decision. Defined.

(** [typeof]: note that [typeof null] is ['object']. *)
Definition typeof (v : value) : jstype :=
  match v with
  | VUndefined => TUndefined
  | VNull => TObject
  | VBool _ => TBoolean
  | VNum _ => TNumber
  | VStr _ => TString
  | VObj _ => TObject
  end.

(** Truthiness, as [Array.prototype.some] tests a callback's result. *)
Definition truthy (v : value) : bool :=
  match v with
  | VUndefined | VNull => false
  | VBool b => b
  | VNum n => negb (n =? 0)%Z
  | VStr s => negb (String.eqb s "")
  | VObj _ => true
  end.

(** [Object.keys(v)] followed by the reads [v[key]]: the property list
    of an object; a [TypeError] on [null] and [undefined]; no keys for
    the other primitives (the indices of a string's characters apart,
    which no caller below reaches: a string is never [typeof 'object']). *)
Definition own_props (v : value) : outcome (list (string * value)) :=
  match v with
  | VObj props => Return props
  | VNull | VUndefined =>
      Throw (TypeError "Cannot convert undefined or null to object")
  | _ => Return []
  end.

End Js.

(** ** The Redis strategies *)

Module Redis.
Import Js.

(** The commands a strategy issues to the redis client. *)
Inductive command : Type :=
| Rpush (listKey : string) (v : value)
| Hmset (hashKey : string) (fieldsValues : list value)
| Set_ (key : string) (v : value).

(** What a [push] call can change: the client (the commands it has
    received, oldest first) and the caller's path stack, an array that
    is passed by reference. *)
Record world : Type := World {
  redis : list command;
  stack : list string
}.

Definition issue (c : command) (w : world) : world :=
  World (redis w ++ [c]) (stack w).

(** [stack.pop()]: the last entry ([undefined] on an empty array) and
    the array left behind. *)
Definition pop (st : list string) : option string * list string :=
  (last st, removelast st).

(** A strategy is any object with a [push(obj, key, redisClient, stack)]
    method. *)
Record strategy : Type := Strategy {
  push : value -> string -> world -> outcome value * world
}.

(** [RedisFlattenStrategy(keys).push] *)
Definition flatten_push (keys : gset string)
    (obj : value) (key : string) (w : world) : outcome value * world :=
  if bool_decide (length (stack w) = 1)
     && bool_decide (typeof obj = TString)
     && match stack w !! 0 with
        | Some f => bool_decide (f ∈ keys)
        | None => false
        end
  then
    match pop (stack w) with
    | (Some f, rest) =>
        (Return (VBool true),
         World (redis w ++ [Rpush (key +:+ ":" +:+ f) obj]) rest)
    | (None, rest) =>
        (Return (VBool true),
         World (redis w ++ [Rpush (key +:+ ":" +:+ "undefined") obj]) rest)
    end
  else (Return (VBool false), w).

Definition RedisFlattenStrategy (keys : gset string) : strategy :=
  Strategy (flatten_push keys).

(** The reducer of [RedisSetStratry.push]: each key followed by its
    value. *)
Definition hsetKeysValues (props : list (string * value)) : list value :=
  foldl (fun acc kv => acc ++ [VStr kv.1; kv.2]) [] props.

(** [RedisSetStratry.push] *)
Definition set_push
    (obj : value) (key : string) (w : world) : outcome value * world :=
  let '(obj, w) :=
    if negb (bool_decide (typeof obj = TObject))
       && negb (bool_decide (length (stack w) = 0))
    then
      match pop (stack w) with
      | (Some f, rest) => (VObj [(f, obj)], World (redis w) rest)
      | (None, rest) => (VObj [("undefined", obj)], World (redis w) rest)
      end
    else (obj, w) in
  if bool_decide (typeof obj = TObject) then
    match own_props obj with
    | Return props =>
        (Return (VBool true), issue (Hmset key (hsetKeysValues props)) w)
    | Throw e => (Throw e, w)
    end
  else (Return (VBool true), issue (Set_ key obj) w).

Definition RedisSetStratry : strategy := Strategy set_push.

(** [strategies.some(strategy => strategy.push(obj, key, redisClient,
    stack))]: every strategy gets the same client and the same stack
    object; the scan stops at the first truthy result, and an exception
    leaves it at once. *)
Fixpoint some_push (strategies : list strategy)
    (obj : value) (key : string) (w : world) : outcome bool * world :=
  match strategies with
  | [] => (Return false, w)
  | s :: rest =>
      match push s obj key w with
      | (Return r, w') =>
          if truthy r then (Return true, w') else some_push rest obj key w'
      | (Throw e, w') => (Throw e, w')
      end
  end.

(** [ChainRedisStrategy(strategies).push]: the result of [some] is
    dropped, the method returns [undefined]. *)
Definition chain_push (strategies : list strategy)
    (obj : value) (key : string) (w : world) : outcome value * world :=
  match some_push strategies obj key w with
  | (Return _, w') => (Return VUndefined, w')
  | (Throw e, w') => (Throw e, w')
  end.

Definition ChainRedisStrategy (strategies : list strategy) : strategy :=
  Strategy (chain_push strategies).

(** The condition on which the flatten strategy takes a write. *)
Definition flatten_claims (keys : gset string) (obj : value) (w : world)
    : Prop :=
  exists f, stack w = [f] /\ typeof obj = TString /\ f ∈ keys.

End Redis.

(** ** The TaskLogger *)

Module TaskLogger.

Inductive status : Type :=
| PENDING | RUNNING | SUCCESS | ERROR | SKIPPED | WARNING.

#[export] Instance status_eq_dec : EqDecision status.
Proof. solve_decision. Defined.

(** [step.status === STATUS.RUNNING || step.status === STATUS.PENDING] *)
Definition open_status (st : status) : bool :=
  match st with
  | RUNNING | PENDING => true
  | _ => false
  end.

Definition terminal (st : status) : bool := negb (open_status st).

(** A location in the remote store: the entry that the n-th
    [stepsRef.push] created, or [new FirebaseLib(url)]. *)
Inductive ref : Type :=
| StepRef (n : nat)
| UrlRef (url : string).

#[export] Instance ref_eq_dec : EqDecision ref.
Proof. solve_decision. Defined.

(** The step object held in [steps].  [hasWarning] and
    [finishTimeStamp] are absent ([false], [None]) until first set; the
    step built for [initializeStepReference] has no [id] and no
    [creationTimeStamp] ([""], [None]). *)
Record step : Type := Step {
  name : string;
  id : string;
  creationTimeStamp : option Z;
  step_status : status;
  hasWarning : bool;
  finishTimeStamp : option Z;
  firebaseRef : ref
}.

(** The writes issued to the remote store.  In [UpdateStep] the finish
    time [None] is the empty string of [finishTimeStamp: ""]. *)
Inductive write : Type :=
| PushStep (r : ref) (name id : string) (creation : Z) (st : status)
| UpdateStep (r : ref) (st : status) (finish : option Z)
| PushLog (r : ref) (line : string)
| SetCreation (r : ref) (seconds : Z)
| SetJobStatus (st : status)
| SetLastUpdate (millis : Z).

(** The events given to [self.emit]. *)
Inductive event : Type :=
| StepPushed (name : string)
| ErrorEvent (message : string) (arg : option string).

(** What [getReference] and its siblings return. *)
Inductive locator : Type :=
| LStep (r : ref)
| LLogs (r : ref)
| LLastUpdate.

Inductive result : Type :=
| RUndefined
| RStatus (st : status)
| RLocator (l : locator).

(** The constructor's arguments, and the clock: [clock n] is what the
    n-th [new Date().getTime()] of the job returns. *)
Record env : Type := Env {
  jobId : string;
  firstStepCreationTime : option Z;
  baseFirebaseUrl : string;
  FirebaseLib : bool;
  initializeStepReference : option string;
  clock : nat -> Z
}.

(** The closure of one [TaskLogger]: its variables, and what it has sent
    out.  [steps] holds the own properties of the object used as a table
    of steps; [handler] holds the key of the step that the current
    handler object closes over.  Two facts about the process come with
    it, because the code depends on them: [listening], whether a
    listener of ["error"] has been registered on the emitter, and
    [proto_status], whether [Object.prototype] has been given a [status]
    property. *)
Record state : Type := State {
  listening : bool;
  proto_status : bool;
  fatal : bool;
  finished : bool;
  steps : gmap string step;
  handler : option string;
  pushed : nat;
  writes : list write;
  watchers : list (ref * string);
  events : list event;
  posts : list (string * string * string);
  ticks : nat
}.

Definition M (A : Type) : Type := state -> outcome A * state.

Definition ret {A} (a : A) : M A := fun s => (Return a, s).
Definition throw {A} (e : exn) : M A := fun s => (Throw e, s).
Definition bind {A B} (m : M A) (k : A -> M B) : M B :=
  fun s =>
    match m s with
    | (Return a, s') => k a s'
    | (Throw e, s') => (Throw e, s')
    end.

Notation "'let*' x ':=' m 'in' k" := (bind m (fun x => k))
  (at level 10, x pattern, m at level 100, k at level 200).

Definition set_fatal (b : bool) : M unit := fun s =>
  (Return (),
   State (listening s) (proto_status s)
     b (finished s) (steps s) (handler s) (pushed s) (writes s)
     (watchers s) (events s) (posts s) (ticks s)).

Definition set_finished (b : bool) : M unit := fun s =>
  (Return (),
   State (listening s) (proto_status s)
     (fatal s) b (steps s) (handler s) (pushed s) (writes s)
     (watchers s) (events s) (posts s) (ticks s)).

Definition set_step (k : string) (st : step) : M unit := fun s =>
  (Return (),
   State (listening s) (proto_status s)
     (fatal s) (finished s) (<[k := st]> (steps s)) (handler s)
     (pushed s) (writes s) (watchers s) (events s) (posts s) (ticks s)).

Definition set_handler (h : option string) : M unit := fun s =>
  (Return (),
   State (listening s) (proto_status s)
     (fatal s) (finished s) (steps s) h (pushed s) (writes s)
     (watchers s) (events s) (posts s) (ticks s)).

(** [stepsRef.push(...)] allots the next entry. *)
Definition fresh_ref : M ref := fun s =>
  (Return (StepRef (pushed s)),
   State (listening s) (proto_status s)
     (fatal s) (finished s) (steps s) (handler s) (S (pushed s))
     (writes s) (watchers s) (events s) (posts s) (ticks s)).

Definition store (w : write) : M unit := fun s =>
  (Return (),
   State (listening s) (proto_status s) (fatal s) (finished s) (steps s)
     (handler s) (pushed s)
     (writes s ++ [w]) (watchers s) (events s) (posts s) (ticks s)).

Definition watch (r : ref) (nm : string) : M unit := fun s =>
  (Return (),
   State (listening s) (proto_status s) (fatal s) (finished s) (steps s)
     (handler s) (pushed s)
     (writes s) (watchers s ++ [(r, nm)]) (events s) (posts s) (ticks s)).

(** [self.emit(...)]: the event is recorded in the order of emission.
    An ["error"] event that finds no listener is thrown by Node's
    emitter into the caller of [emit]: the error it carries.  With a
    listener, [emit] returns once the listeners have run; what they do
    with the event is theirs (they are taken to return, and not to call
    back into the logger). *)
Definition emit (e : event) : M unit := fun s =>
  (match e with
   | ErrorEvent message arg =>
       if listening s then Return () else Throw (EmittedError message arg)
   | StepPushed _ => Return ()
   end,
   State (listening s) (proto_status s) (fatal s) (finished s) (steps s)
     (handler s) (pushed s) (writes s) (watchers s) (events s ++ [e])
     (posts s) (ticks s)).

(** [on(eventName, listener)] of the returned object, bound to the
    emitter: a listener of ["error"] is registered.  Listeners are
    taken to stay registered. *)
Definition on (eventName : string) : M unit := fun s =>
  (Return (),
   State (listening s || String.eqb eventName "error") (proto_status s)
     (fatal s) (finished s) (steps s) (handler s) (pushed s) (writes s)
     (watchers s) (events s) (posts s) (ticks s)).

(** [Object.prototype.status = ...] *)
Definition pollute : M unit := fun s =>
  (Return (),
   State (listening s) true (fatal s) (finished s) (steps s) (handler s)
     (pushed s) (writes s) (watchers s) (events s) (posts s) (ticks s)).

(** The property names that [{}] inherits from [Object.prototype], all
    of them with a truthy value: functions, and for [__proto__] the
    prototype itself. *)
Definition prototype_keys : list string :=
  ["constructor"; "__defineGetter__"; "__defineSetter__"; "hasOwnProperty";
   "__lookupGetter__"; "__lookupSetter__"; "isPrototypeOf";
   "propertyIsEnumerable"; "toString"; "valueOf"; "__proto__";
   "toLocaleString"].

(** Whether [steps[key]], for a key that is no own property of [steps],
    finds a value up the prototype chain. *)
Definition inherited (s : state) (key : string) : bool :=
  bool_decide (key ∈ prototype_keys)
  || (proto_status s && String.eqb key "status").

Definition post (url token nm : string) : M unit := fun s =>
  (Return (),
   State (listening s) (proto_status s) (fatal s) (finished s) (steps s)
     (handler s) (pushed s)
     (writes s) (watchers s) (events s) (posts s ++ [(url, token, nm)])
     (ticks s)).

Section WithEnv.

Variable E : env.

(** [new Date().getTime()] *)
Definition getTime : M Z := fun s =>
  (Return (clock E (ticks s)),
   State (listening s) (proto_status s) (fatal s) (finished s) (steps s)
     (handler s) (pushed s)
     (writes s) (watchers s) (events s) (posts s) (S (ticks s))).

(** [+(millis / 1000).toFixed()]: the nearest integer, a half rounded
    away from zero. *)
Definition seconds (millis : Z) : Z :=
  if (millis <? 0)%Z then (- ((- millis + 500) / 1000))%Z
  else ((millis + 500) / 1000)%Z.

(** The state that the constructor leaves, or the error it throws.  The
    constructor registers no listener, and the process is taken to start
    with no [status] property on [Object.prototype]. *)
Definition init_state : state :=
  State false false false false
    match initializeStepReference E with
    | Some url =>
        if String.eqb url "" then ∅
        else
          {[ "Initializing Process" :=
               Step "Initializing Process" "" None RUNNING false None
                 (UrlRef url) ]}
    | None => ∅
    end
    None 0 [] [] [] [] 0.

Definition new_TaskLogger : outcome state :=
  if String.eqb (jobId E) "" then
    Throw (CFError
      "failed to create taskLogger because jobId must be provided")
  else if String.eqb (baseFirebaseUrl E) "" then
    Throw (CFError
      "failed to create taskLogger because baseFirebaseUrl must be provided")
  else if negb (FirebaseLib E) then
    Throw (CFError
      "failed to create taskLogger because Firebase lib reference must be provided")
  else Return init_state.

(** *** The handler object *)

Definition ESC : string := String "027"%char "".
Definition CRLF : string := String "013"%char (String "010"%char "").

(** [`\x1B[31m${text}\x1B[0m\r\n`] and [`\x1B[01;93m${text}\x1B[0m\r\n`] *)
Definition red (text : string) : string :=
  ESC +:+ "[31m" +:+ text +:+ ESC +:+ "[0m" +:+ CRLF.
Definition yellow (text : string) : string :=
  ESC +:+ "[01;93m" +:+ text +:+ ESC +:+ "[0m" +:+ CRLF.

Definition status_string (st : status) : string :=
  match st with
  | PENDING => "pending"
  | RUNNING => "running"
  | SUCCESS => "success"
  | ERROR => "error"
  | SKIPPED => "skipped"
  | WARNING => "warning"
  end.

(** The [step] variable of a handler's closure: the object kept under
    the handler's key.  A handler is only ever built for a key that
    [create] has just filled or found, and no entry of [steps] is ever
    removed or replaced by another object; the [TypeError] below is for
    a key that names no step, which no handler has. *)
Definition the_step (k : string) : M step := fun s =>
  match steps s !! k with
  | Some st => (Return st, s)
  | None => (Throw (TypeError "no step behind this handler"), s)
  end.

(** Assignments to the fields of the step object. *)
Definition assign (k : string) (f : step -> step) : M unit := fun s =>
  (Return (),
   State (listening s) (proto_status s)
     (fatal s) (finished s) (alter f k (steps s)) (handler s)
     (pushed s) (writes s) (watchers s) (events s) (posts s) (ticks s)).

Definition with_status (v : status) (st : step) : step :=
  Step (name st) (id st) (creationTimeStamp st) v (hasWarning st)
    (finishTimeStamp st) (firebaseRef st).
Definition with_hasWarning (v : bool) (st : step) : step :=
  Step (name st) (id st) (creationTimeStamp st) (step_status st) v
    (finishTimeStamp st) (firebaseRef st).
Definition with_finishTimeStamp (v : option Z) (st : step) : step :=
  Step (name st) (id st) (creationTimeStamp st) (step_status st)
    (hasWarning st) v (firebaseRef st).

(** [progressRef.child("lastUpdate").set(new Date().getTime())] *)
Definition touch_lastUpdate : M unit :=
  let* now := getTime in store (SetLastUpdate now).

(** *** create *)

(** The key [id || name] under which a step is kept: an absent or empty
    [id] is given as [""]. *)
Definition step_key (nm i : string) : string :=
  if String.eqb i "" then nm else i.

(** A step handle is one of the two objects [create] returns: the
    object literal of the [fatal || finished] branch, or a handler that
    closes over the step kept under [key]. *)
Inductive handle : Type :=
| NullHandle
| Handler (key : string).

Definition truthy_time (t : option Z) : option Z :=
  match t with
  | Some z => if (z =? 0)%Z then None else Some z
  | None => None
  end.

(** [create(name, id, eventReporting)].  [var step = steps[id || name]]
    is an own property of [steps], or a value that the empty table
    inherits, or [undefined].  An inherited value is truthy and no step:
    the code goes to its [else] branch, where [step.status = ...] lands
    on the inherited object (on [Object.prototype] itself for the key
    [__proto__]; the assignment throws when the value is the string
    that such a [status] is) and [step.firebaseRef.update] throws for
    want of a [firebaseRef]; [handler] is not assigned. *)
Definition create (nm i : string) (eventReporting : option (string * string))
    : M handle := fun s =>
  if fatal s || finished s then (Return NullHandle, s)
  else
    let key := step_key nm i in
    (let* _ :=
       match steps s !! key with
       | None =>
         if bool_decide (key ∈ prototype_keys) then
           let* _ := if String.eqb key "__proto__" then pollute
                     else ret () in
           throw (TypeError "Cannot read property 'update' of undefined")
         else if proto_status s && String.eqb key "status" then
           throw (TypeError
                    "Cannot create property 'status' on string 'pending'")
         else
           let* now := getTime in
           let creation :=
             match truthy_time (firstStepCreationTime E) with
             | Some t =>
                 if bool_decide (steps s = ∅) then t else seconds now
             | None => seconds now
             end in
           let* r := fresh_ref in
           let* _ := set_step key
                       (Step nm i (Some creation) PENDING false None r) in
           let* _ := store (PushStep r nm i creation PENDING) in
           let* _ := watch r nm in
           match eventReporting with
           | Some (url, token) => post url token nm
           | None => ret ()
           end
       | Some st =>
           let* _ := assign key (with_status PENDING) in
           store (UpdateStep (firebaseRef st) PENDING None)
       end in
     let* _ := set_handler (Some key) in
     ret (Handler key)) s.

(** The watcher that [create] arms: when the store echoes the entry
    with the step's name, the watcher is removed and ["step-pushed"] is
    emitted.  [val] is [snapshot.val().name] ([None] when there is no
    value). *)
Definition on_value (r : ref) (val : option string) : M unit := fun s =>
  match val with
  | Some nm =>
      if bool_decide ((r, nm) ∈ watchers s) then
        (Return (),
         State (listening s) (proto_status s) (fatal s) (finished s) (steps s)
     (handler s) (pushed s)
           (writes s) (filter (fun w => w.1 ≠ r) (watchers s))
           (events s ++ [StepPushed nm]) (posts s) (ticks s))
      else (Return (), s)
  | None => (Return (), s)
  end.

(** *** The methods of a handler *)

Definition h_start (k : string) : M result := fun s =>
  if fatal s then (Return RUndefined, s)
  else
    (let* st := the_step k in
     if bool_decide (step_status st = PENDING) then
       let* _ := assign k (with_status RUNNING) in
       let* _ := store (SetJobStatus RUNNING) in
       ret RUndefined
     else
       let* _ := emit (ErrorEvent
         "progress-logs 'start' handler was triggered when the step status is: %s"
         (Some (status_string (step_status st)))) in
       ret RUndefined) s.

Definition h_getReference (k : string) : M result :=
  let* st := the_step k in ret (RLocator (LStep (firebaseRef st))).

Definition h_getLogsReference (k : string) : M result :=
  let* st := the_step k in ret (RLocator (LLogs (firebaseRef st))).

Definition h_getLastUpdateReference (k : string) : M result :=
  ret (RLocator LLastUpdate).

Definition h_write (k : string) (message : string) : M result := fun s =>
  if fatal s then (Return RUndefined, s)
  else
    (let* st := the_step k in
     if open_status (step_status st) then
       let* _ := store (PushLog (firebaseRef st) message) in
       let* _ := touch_lastUpdate in
       ret RUndefined
     else
       let* _ := emit (ErrorEvent
         "progress-logs 'write' handler was triggered after the job finished with message: %s"
         (Some message)) in
       ret RUndefined) s.

Definition h_debug (k : string) (message : string) : M result := fun s =>
  if fatal s then (Return RUndefined, s)
  else
    (let* st := the_step k in
     if open_status (step_status st) then
       let* _ := store (PushLog (firebaseRef st) (message +:+ CRLF)) in
       let* _ := touch_lastUpdate in
       ret RUndefined
     else
       let* _ := emit (ErrorEvent
         "progress-logs 'debug' handler was triggered after the job finished with message: %s"
         (Some message)) in
       ret RUndefined) s.

Definition h_warn (k : string) (message : string) : M result := fun s =>
  if fatal s then (Return RUndefined, s)
  else
    (let* st := the_step k in
     if open_status (step_status st) then
       let* _ := assign k (with_hasWarning true) in
       let* _ := store (PushLog (firebaseRef st) (yellow message)) in
       let* _ := touch_lastUpdate in
       ret RUndefined
     else
       let* _ := emit (ErrorEvent
         "progress-logs 'warning' handler was triggered after the job finished with message: %s"
         (Some message)) in
       ret RUndefined) s.

Definition h_info (k : string) (message : string) : M result := fun s =>
  if fatal s then (Return RUndefined, s)
  else
    (let* st := the_step k in
     if open_status (step_status st) then
       let* _ := store (PushLog (firebaseRef st) (message +:+ CRLF)) in
       let* _ := touch_lastUpdate in
       ret RUndefined
     else
       let* _ := emit (ErrorEvent
         "progress-logs 'info' handler was triggered after the job finished with message: %s"
         (Some message)) in
       ret RUndefined) s.

(** [finish(err, skip)].  [err] is [None] for a falsy argument and
    [Some e] for a truthy one whose [toString()] is [e]; [skip] is the
    truthiness of the second argument. *)
Definition h_finish (k : string) (err : option string) (skip : bool)
    : M result := fun s =>
  if fatal s then (Return RUndefined, s)
  else
    (let* st := the_step k in
     if open_status (step_status st) then
       let* now := getTime in
       let* _ := assign k (with_finishTimeStamp (Some (seconds now))) in
       let* _ := assign k (with_status
                   (match err with Some _ => ERROR | None => SUCCESS end)) in
       let* _ := if skip then assign k (with_status SKIPPED) else ret () in
       let* _ := match err with
                 | Some e => store (PushLog (firebaseRef st) (red e))
                 | None => ret ()
                 end in
       let* st1 := the_step k in
       let* _ := match err with
                 | None =>
                     if hasWarning st1 then assign k (with_status WARNING)
                     else ret ()
                 | Some _ => ret ()
                 end in
       let* st2 := the_step k in
       let* _ := store (UpdateStep (firebaseRef st2) (step_status st2)
                          (finishTimeStamp st2)) in
       let* _ := touch_lastUpdate in
       let* _ := set_handler None in
       ret RUndefined
     else
       let* _ := match err with
                 | Some e => emit (ErrorEvent
                     "progress-logs 'finish' handler was triggered after the job finished with err: %s"
                     (Some e))
                 | None => emit (ErrorEvent
                     "progress-logs 'finish' handler was triggered after the job finished"
                     None)
                 end in
       ret RUndefined) s.

Definition h_resetCreationTimeStamp (k : string) : M result := fun s =>
  if fatal s then (Return RUndefined, s)
  else
    (let* st := the_step k in
     if open_status (step_status st) then
       let* now := getTime in
       let* _ := store (SetCreation (firebaseRef st) (seconds now)) in
       let* _ := touch_lastUpdate in
       ret RUndefined
     else
       let* _ := emit (ErrorEvent
         "progress-logs 'resetCreationTimeStamp' handler was triggered after the job finished"
         None) in
       ret RUndefined) s.

Definition h_getStatus (k : string) : M result :=
  let* st := the_step k in ret (RStatus (step_status st)).

(** *** Calling a method of a handle *)

Inductive call : Type :=
| Start
| GetReference
| GetLogsReference
| GetLastUpdateReference
| Write (message : string)
| Debug (message : string)
| Warn (message : string)
| Info (message : string)
| Finish (err : option string) (skip : bool)
| ResetCreationTimeStamp
| GetStatus.

Definition method_name (c : call) : string :=
  match c with
  | Start => "start"
  | GetReference => "getReference"
  | GetLogsReference => "getLogsReference"
  | GetLastUpdateReference => "getLastUpdateReference"
  | Write _ => "write"
  | Debug _ => "debug"
  | Warn _ => "warn"
  | Info _ => "info"
  | Finish _ _ => "finish"
  | ResetCreationTimeStamp => "resetCreationTimeStamp"
  | GetStatus => "getStatus"
  end.

(** The properties of the object literal that [create] returns when the
    job is fatal or finished; each is a function with an empty body. *)
Definition null_object : list string :=
  ["getReference"; "getLogsReference"; "getLastUpdateReference";
   "write"; "debug"; "warn"; "info"; "finish"].

(** [h.method(args)]: calling a property that the object does not have
    is a [TypeError]. *)
Definition invoke (h : handle) (c : call) : M result :=
  match h with
  | NullHandle =>
      if bool_decide (method_name c ∈ null_object) then ret RUndefined
      else throw (TypeError (method_name c +:+ " is not a function"))
  | Handler k =>
      match c with
      | Start => h_start k
      | GetReference => h_getReference k
      | GetLogsReference => h_getLogsReference k
      | GetLastUpdateReference => h_getLastUpdateReference k
      | Write m => h_write k m
      | Debug m => h_debug k m
      | Warn m => h_warn k m
      | Info m => h_info k m
      | Finish err skip => h_finish k err skip
      | ResetCreationTimeStamp => h_resetCreationTimeStamp k
      | GetStatus => h_getStatus k
      end
  end.

(** *** finish and fatalError of the job *)

Definition finish (err : option string) : M unit := fun s =>
  if fatal s then (Return (), s)
  else
    (let* _ := match handler s with
               | Some k => h_finish k err false
               | None => ret RUndefined
               end in
     set_finished true) s.

Definition fatalError (err : option string) : M unit := fun s =>
  match err with
  | None =>
      (Throw (CFError "fatalError was called without an error. not valid."),
       s)
  | Some _ =>
      if fatal s then (Return (), s)
      else
        (let* _ := match handler s with
                   | Some k => h_finish k err false
                   | None =>
                       let* errorStep :=
                         create "Something went wrong" "" None in
                       invoke errorStep (Finish err false)
                   end in
         set_fatal true) s
  end.

(** *** Runs of a job *)

(** What the owner of a logger, and the store, can do to it. *)
Inductive op : Type :=
| Create (nm i : string) (eventReporting : option (string * string))
| Invoke (h : handle) (c : call)
| JobFinish (err : option string)
| FatalError (err : option string)
| OnValue (r : ref) (val : option string)
| On (eventName : string).

(** The state after an operation, whether it returned or threw. *)
Definition step_op (o : op) (s : state) : state :=
  match o with
  | Create nm i ev => (create nm i ev s).2
  | Invoke h c => (invoke h c s).2
  | JobFinish err => (finish err s).2
  | FatalError err => (fatalError err s).2
  | OnValue r val => (on_value r val s).2
  | On eventName => (on eventName s).2
  end.

Definition run (ops : list op) (s : state) : state :=
  foldl (fun s o => step_op o s) s ops.

(** *** Vocabulary of the statements below *)

(** The calls that write or move a status: all but the four reads. *)
Definition mutator (c : call) : bool :=
  match c with
  | Start | Write _ | Debug _ | Info _ | Warn _ | Finish _ _
  | ResetCreationTimeStamp => true
  | _ => false
  end.

(** The five calls that log or finish. *)
Definition logging (c : call) : bool :=
  match c with
  | Write _ | Debug _ | Info _ | Warn _ | Finish _ _ => true
  | _ => false
  end.

(** The status that the assignments of [finish(err, skip)] leave on an
    open step, as a table ([h_finish_open] below relates the two). *)
Definition resolve (err : option string) (skip hasW : bool) : status :=
  match err, skip, hasW with
  | Some _, true, _ => SKIPPED
  | Some _, false, _ => ERROR
  | None, _, true => WARNING
  | None, true, false => SKIPPED
  | None, false, false => SUCCESS
  end.

(** The step and the state that a finish which goes through leaves. *)
Definition finished_step (st : step) (err : option string) (skip : bool)
    (now : Z) : step :=
  Step (name st) (id st) (creationTimeStamp st)
    (resolve err skip (hasWarning st)) (hasWarning st)
    (Some (seconds now)) (firebaseRef st).

Definition finish_writes (st : step) (err : option string) (skip : bool)
    (now later : Z) : list write :=
  match err with
  | Some e => [PushLog (firebaseRef st) (red e)]
  | None => []
  end
  ++ [UpdateStep (firebaseRef st) (resolve err skip (hasWarning st))
        (Some (seconds now));
      SetLastUpdate later].

(** The creation time that [create] gives a new step. *)
Definition creation_time (s : state) : Z :=
  match truthy_time (firstStepCreationTime E) with
  | Some t =>
      if bool_decide (steps s = ∅) then t else seconds (clock E (ticks s))
  | None => seconds (clock E (ticks s))
  end.

(** While [handler] is set, the step it closes over is pending or
    running: a finish that goes through clears the variable. *)
Definition wf (s : state) : Prop :=
  forall k, handler s = Some k ->
    exists st, steps s !! k = Some st /\ open_status (step_status st) = true.

(** The operations that make or re-make the step kept under [k]. *)
Definition recreates (k : string) (o : op) : bool :=
  match o with
  | Create nm i _ => bool_decide (step_key nm i = k)
  | FatalError _ => bool_decide (k = "Something went wrong")
  | _ => false
  end.

(** The log lines sent to the entry [r], oldest first. *)
Definition logs_of (r : ref) (ws : list write) : list string :=
  omap (fun w =>
          match w with
          | PushLog r' line => if decide (r' = r) then Some line else None
          | _ => None
          end) ws.

(** A run of [create] calls, each given by its three arguments, and the
    key [id || name] of one of them. *)
Definition create_args : Type := string * string * option (string * string).

Definition creates (cs : list create_args) : list op :=
  map (fun a : create_args => Create a.1.1 a.1.2 a.2) cs.

Definition args_key (a : create_args) : string := step_key a.1.1 a.1.2.

(** *** addErrorMessageToEndOfSteps *)

(** The callback of [stepsRef.limitToLast(1).once('value', ...)]:
    [_.forEach] over the entries of the snapshot, each getting the
    message as a red log line. *)
Fixpoint forEach_push (message : string) (entries : list ref) : M unit :=
  match entries with
  | [] => ret ()
  | r :: rest =>
      let* _ := store (PushLog r (red message)) in
      forEach_push message rest
  end.

(** [addErrorMessageToEndOfSteps(message)], together with the store's
    answer to its query: [snapshot] lists the entries under the job's
    steps that the answer holds (the last one, or none when there is no
    entry).  The promise it returns is resolved when the callback has
    run; a [push] that throws, which would reject it, is the store's
    matter. *)
Definition addErrorMessageToEndOfSteps (message : string)
    (snapshot : list ref) : M unit :=
  forEach_push message snapshot.

(** *** More vocabulary *)

(** The log line that a logging call sends for its message. *)
Definition line_of (c : call) : option string :=
  match c with
  | Write m => Some m
  | Debug m | Info m => Some (m +:+ CRLF)
  | Warn m => Some (yellow m)
  | _ => None
  end.

Definition is_warn (c : call) : bool :=
  match c with Warn _ => true | _ => false end.

(** The moves of a status that do not go through [create]. *)
Definition transition (a b : status) : Prop :=
  b = a
  \/ (a = PENDING /\ b = RUNNING)
  \/ (open_status a = true /\ terminal b = true).

(** What stays of a step object whatever is done to the job. *)
Definition evolves (st st' : step) : Prop :=
  name st' = name st /\ id st' = id st
  /\ creationTimeStamp st' = creationTimeStamp st
  /\ firebaseRef st' = firebaseRef st
  /\ (hasWarning st = true -> hasWarning st' = true).

(** Every step of [s] is still in [s'], with what a step keeps. *)
Definition persists (s s' : state) : Prop :=
  forall k st, steps s !! k = Some st ->
    exists st', steps s' !! k = Some st' /\ evolves st st'.

(** What stays of a job once it is fatal: everything but the watchers
    and the events, which the store's echoes can still move. *)
Definition frozen (s s' : state) : Prop :=
  fatal s' = fatal s /\ finished s' = finished s /\ steps s' = steps s
  /\ handler s' = handler s /\ pushed s' = pushed s
  /\ writes s' = writes s /\ posts s' = posts s /\ ticks s' = ticks s.

(** Every creation time in memory is a reading of the clock that the
    job has already taken, in seconds. *)
Definition clock_stamped (s : state) : Prop :=
  forall k st t, steps s !! k = Some st -> creationTimeStamp st = Some t ->
    exists n, n < ticks s /\ t = seconds (clock E n).

(** The override [t] of the first creation time is held by the step of
    the first entry pushed, and by no other step: every other one holds
    a reading of the clock that the job has already taken, in seconds.
    The table is empty exactly as long as nothing was pushed. *)
Definition override_on_first (t : Z) (s : state) : Prop :=
  (steps s = ∅ <-> pushed s = 0)
  /\ forall k st, steps s !! k = Some st ->
       (firebaseRef st = StepRef 0 /\ creationTimeStamp st = Some t)
       \/ (exists n m, firebaseRef st = StepRef (S n) /\ m < ticks s
             /\ creationTimeStamp st = Some (seconds (clock E m))).

(** No two steps share a store entry, and the entries that [push] has
    allotted are the ones below the counter. *)
Definition distinct_refs (s : state) : Prop :=
  (forall k st n, steps s !! k = Some st -> firebaseRef st = StepRef n ->
     n < pushed s)
  /\ (forall k1 k2 st1 st2,
       steps s !! k1 = Some st1 -> steps s !! k2 = Some st2 ->
       firebaseRef st1 = firebaseRef st2 -> k1 = k2).

End WithEnv.

End TaskLogger.

(** ** An example job *)

Section Examples.
Import TaskLogger.

(** A job with no override of the first creation time and no
    initializing step, on a clock that starts at 1700000000000 ms and
    advances by a second at every reading. *)
Definition example_env : env :=
  Env "J1" None "https://store.example/build-logs/" true None
    (fun n => (1700000000000 + 1000 * Z.of_nat n)%Z).

(** [create("build")], then [warn("disk space low")]. *)
Definition warned_job : state :=
  run example_env
    [Create "build" "" None; Invoke (Handler "build") (Warn "disk space low")]
    (init_state example_env).

(** [create("build")], then [finish()] on the handle. *)
Definition finished_build : state :=
  run example_env
    [Create "build" "" None; Invoke (Handler "build") (Finish None false)]
    (init_state example_env).

(** The same after [on("error", listener)]. *)
Definition watched_build : state :=
  run example_env
    [On "error"; Create "build" "" None;
     Invoke (Handler "build") (Finish None false)]
    (init_state example_env).

(** The example job with a [firstStepCreationTime]. *)
Definition stamped_env : env :=
  Env "J1" (Some 1600000000%Z) "https://store.example/build-logs/" true None
    (fun n => (1700000000000 + 1000 * Z.of_nat n)%Z).

(** [finish()] of the job, with no step ever created. *)
Definition finished_job : state :=
  run example_env [JobFinish None] (init_state example_env).

(** [create("build")], then [fatalError("boom")]. *)
Definition aborted_job : state :=
  run example_env [Create "build" "" None; FatalError (Some "boom")]
    (init_state example_env).

End Examples.

(** ** Facts about the Redis strategies *)

Section RedisFacts.
Import Js Redis.

Implicit Types (obj : value) (key : string) (w : world) (keys : gset string).

Lemma hsetKeysValues_flat (props : list (string * value)) :
  hsetKeysValues props = flat_map (fun kv => [VStr kv.1; kv.2]) props.
Proof.
  unfold hsetKeysValues.
  enough (G : forall acc : list value,
    foldl (fun acc kv => acc ++ [VStr kv.1; kv.2]) acc props
    = acc ++ flat_map (fun kv => [VStr kv.1; kv.2]) props)
    by apply (G []).
  induction props as [ | kv props IH]; intros acc; simpl.
  - by rewrite app_nil_r.
  - rewrite IH. by rewrite <- app_assoc.
Qed.

Lemma flatten_push_claim keys obj key w f :
  stack w = [f] -> typeof obj = TString -> f ∈ keys ->
  flatten_push keys obj key w
  = (Return (VBool true),
     World (redis w ++ [Rpush (key +:+ ":" +:+ f) obj]) []).
Proof.
  intros Hst Hty Hin. unfold flatten_push. rewrite Hst, Hty. simpl.
  by rewrite bool_decide_eq_true_2.
Qed.

Lemma flatten_push_decline keys obj key w :
  ~ flatten_claims keys obj w ->
  flatten_push keys obj key w = (Return (VBool false), w).
Proof.
  intros Hno. unfold flatten_push.
  destruct (stack w) as [ | f [ | g st]] eqn:Hst; simpl; try done.
  - destruct (bool_decide (typeof obj = TString)) eqn:Hty; simpl; [|done].
    apply bool_decide_eq_true_1 in Hty.
    rewrite bool_decide_eq_false_2; [done|].
    intros Hin. apply Hno. by exists f.
Qed.

Lemma flatten_claims_dec keys obj w :
  flatten_claims keys obj w \/ ~ flatten_claims keys obj w.
Proof.
  unfold flatten_claims.
  destruct (stack w) as [ | f [ | g st]].
  - right. by intros (f & ? & _).
  - destruct (decide (typeof obj = TString)) as [Hty|Hty];
      [destruct (decide (f ∈ keys)) as [Hin|Hin]|].
    + left. by exists f.
    + right. intros (f' & [= <-] & _ & ?). done.
    + right. intros (f' & _ & ? & _). done.
  - right. by intros (f' & ? & _).
Qed.

(** What the catch-all strategy does with a value that is not [null]. *)
Lemma set_push_handled obj key w :
  obj <> VNull ->
  set_push obj key w
  = (Return (VBool true),
     match obj with
     | VObj props =>
         issue (Hmset key (flat_map (fun kv => [VStr kv.1; kv.2]) props)) w
     | _ =>
         match last (stack w) with
         | Some f =>
             World (redis w ++ [Hmset key [VStr f; obj]])
               (removelast (stack w))
         | None => issue (Set_ key obj) w
         end
     end).
Proof.
  intros Hnull. unfold set_push, pop.
  destruct obj as [ | | b | n | str | props]; try done; simpl;
    try (by rewrite hsetKeysValues_flat).
  all: destruct (stack w) as [ | f st] eqn:Hst; [done|].
  all: change (bool_decide (length (f :: st) = 0)) with false;
    cbv beta iota delta [negb].
  all: destruct (last (f :: st)) as [g|] eqn:Hl;
    [ reflexivity | by apply last_None in Hl ].
Qed.

Lemma set_push_stack obj key w :
  stack (set_push obj key w).2
  = if bool_decide (typeof obj = TObject) then stack w
    else removelast (stack w).
Proof.
  assert (obj = VNull \/ obj <> VNull) as [->|Hnull]
    by (destruct obj; (by left) || (by right)); [done|].
  rewrite set_push_handled by done.
  destruct obj; try done; simpl;
    destruct (stack w) as [ | f st] eqn:Hst; try done;
    (destruct (last (f :: st)) eqn:Hl; [done | by apply last_None in Hl]).
Qed.

(** C8.  The flatten strategy takes a write exactly when the path stack
    has one entry, the value is a string and the entry is one of the
    strategy's keys; it then appends the value to the list under
    ["{key}:{entry}"] with [rpush]; in every other case it declines and
    issues nothing.  In the chain of the flatten strategy followed by
    the catch-all, a value that is not an object, pushed with an empty
    path stack, is written by a plain [set(key, value)]. *)
Theorem flatten_strategy_claims keys obj key w :
  ((push (RedisFlattenStrategy keys) obj key w).1 = Return (VBool true)
   <-> flatten_claims keys obj w)
  /\ (forall f, stack w = [f] -> typeof obj = TString -> f ∈ keys ->
      push (RedisFlattenStrategy keys) obj key w
      = (Return (VBool true),
         World (redis w ++ [Rpush (key +:+ ":" +:+ f) obj]) []))
  /\ (~ flatten_claims keys obj w ->
      push (RedisFlattenStrategy keys) obj key w = (Return (VBool false), w))
  /\ (typeof obj <> TObject -> stack w = [] ->
      push (ChainRedisStrategy [RedisFlattenStrategy keys; RedisSetStratry])
        obj key w
      = (Return VUndefined, World (redis w ++ [Set_ key obj]) [])).
Proof.
  simpl. split; [|split; [|split]].
  - split.
    + intros Hret.
      destruct (flatten_claims_dec keys obj w) as [Hc|Hc]; [done|].
      rewrite flatten_push_decline in Hret by done. by simplify_eq/=.
    + intros (f & Hst & Hty & Hin).
      by rewrite (flatten_push_claim keys obj key w f).
  - intros f. apply flatten_push_claim.
  - apply flatten_push_decline.
  - intros Hty Hst. unfold chain_push. simpl.
    rewrite flatten_push_decline.
    2:{ intros (f & Hf & _). by rewrite Hst in Hf. }
    simpl. rewrite set_push_handled by (intros ->; by apply Hty).
    unfold issue. rewrite !Hst. destruct obj; simpl in *; congruence.
Qed.

Lemma flatten_strategy_claims_witness :
  push (RedisFlattenStrategy {["log"]}) (VStr "hello") "job"
    (World [] ["log"])
  = (Return (VBool true), World [Rpush "job:log" (VStr "hello")] [])
  /\ push (ChainRedisStrategy [RedisFlattenStrategy {["log"]}; RedisSetStratry])
       (VStr "hello") "job" (World [] [])
     = (Return VUndefined, World [Set_ "job" (VStr "hello")] []).
Proof.
  split.
  - apply (proj1 (proj2 (flatten_strategy_claims {["log"]} (VStr "hello")
             "job" (World [] ["log"]))) "log");
      [reflexivity | reflexivity | by vm_compute].
  - apply (proj2 (proj2 (proj2 (flatten_strategy_claims {["log"]}
             (VStr "hello") "job" (World [] []))))); [discriminate | reflexivity].
Defined.

(** C9.  The catch-all strategy does not handle every input: for [null],
    whose [typeof] is ['object'], it neither wraps the value nor writes
    it, and leaves with the [TypeError] of [Object.keys(null)], whatever
    the key, the client and the path stack. *)
Theorem set_strategy_null key w :
  push RedisSetStratry VNull key w
  = (Throw (TypeError "Cannot convert undefined or null to object"), w).
Proof. by destruct w. Qed.

(** Every other input is handled as C9 says: an object becomes one
    [hmset] of its flattened fields, a value that is not an object is
    wrapped under the top of a non-empty stack and written by [hmset],
    and is written by [set] when the stack is empty. *)
Lemma set_strategy_handles obj key w :
  obj <> VNull ->
  (push RedisSetStratry obj key w).1 = Return (VBool true)
  /\ (forall props, obj = VObj props ->
      (push RedisSetStratry obj key w).2
      = issue (Hmset key (flat_map (fun kv => [VStr kv.1; kv.2]) props)) w)
  /\ (forall f st, typeof obj <> TObject -> stack w = st ++ [f] ->
      (push RedisSetStratry obj key w).2
      = World (redis w ++ [Hmset key [VStr f; obj]]) st)
  /\ (typeof obj <> TObject -> stack w = [] ->
      (push RedisSetStratry obj key w).2 = issue (Set_ key obj) w).
Proof.
  intros Hnull. simpl. rewrite set_push_handled by done. simpl.
  split; [done|]. split; [|split].
  - by intros props ->.
  - intros f st Hty Hst. rewrite Hst, last_snoc, removelast_last.
    destruct obj; simpl in *; congruence.
  - intros Hty Hst. rewrite Hst. destruct obj; simpl in *; congruence.
Qed.

Example set_strategy_object :
  push RedisSetStratry (VObj [("a", VNum 1); ("b", VNum 2)]) "job"
    (World [] ["x"; "y"])
  = (Return (VBool true),
     World [Hmset "job" [VStr "a"; VNum 1; VStr "b"; VNum 2]] ["x"; "y"]).
Proof. reflexivity. Qed.

(** C10.  Both [push] methods change the caller's path stack in place.
    The flatten strategy removes the last entry exactly when it takes
    the write; the catch-all removes the last entry exactly when it
    wraps, that is for a value that is not an object (on an empty stack
    there is nothing to remove).  So a chain push of such a value on a
    non-empty stack leaves the stack one entry shorter, and a second
    push that is given the same client and stack sees the shorter
    stack: after a string went to the list of the only entry, the next
    one is written by [set]. *)
Theorem push_pops_path_stack keys obj key w :
  (flatten_claims keys obj w ->
   stack (push (RedisFlattenStrategy keys) obj key w).2
   = removelast (stack w))
  /\ (~ flatten_claims keys obj w ->
      stack (push (RedisFlattenStrategy keys) obj key w).2 = stack w)
  /\ (typeof obj <> TObject ->
      stack (push RedisSetStratry obj key w).2 = removelast (stack w))
  /\ (typeof obj = TObject ->
      stack (push RedisSetStratry obj key w).2 = stack w)
  /\ (typeof obj <> TObject ->
      stack (push (ChainRedisStrategy
                     [RedisFlattenStrategy keys; RedisSetStratry])
               obj key w).2
      = removelast (stack w))
  /\ (forall obj', flatten_claims keys obj w -> typeof obj' = TString ->
      let chain :=
        ChainRedisStrategy [RedisFlattenStrategy keys; RedisSetStratry] in
      let w1 := (push chain obj key w).2 in
      stack w1 = []
      /\ (push chain obj' key w1).2
         = World (redis w1 ++ [Set_ key obj']) []).
Proof.
  assert (Hclaim : flatten_claims keys obj w ->
    exists f, stack w = [f] /\
      flatten_push keys obj key w
      = (Return (VBool true),
         World (redis w ++ [Rpush (key +:+ ":" +:+ f) obj]) [])).
  { intros (f & Hst & Hty & Hin). exists f. split; [done|].
    by apply flatten_push_claim. }
  simpl. split; [|split; [|split; [|split; [|split]]]].
  - intros Hc. destruct (Hclaim Hc) as (f & Hst & ->). by rewrite Hst.
  - intros Hc. by rewrite flatten_push_decline.
  - intros Hty. rewrite set_push_stack. by rewrite bool_decide_eq_false_2.
  - intros Hty. rewrite set_push_stack. by rewrite bool_decide_eq_true_2.
  - intros Hty. unfold chain_push. simpl.
    destruct (flatten_claims_dec keys obj w) as [Hc|Hc].
    + destruct (Hclaim Hc) as (f & Hst & ->). simpl. by rewrite Hst.
    + rewrite flatten_push_decline by done. simpl.
      pose proof (set_push_stack obj key w) as Hs.
      rewrite bool_decide_eq_false_2 in Hs by done.
      destruct (set_push obj key w) as [[r|e] w']; simpl in *;
        [by destruct (truthy r)|done].
  - intros obj' Hc Hty'. unfold chain_push. simpl.
    destruct (Hclaim Hc) as (f & Hst & ->). simpl. split; [done|].
    rewrite set_push_handled by (by intros ->). simpl.
    unfold issue. destruct obj'; simpl in *; congruence.
Qed.

Lemma push_pops_path_stack_witness :
  stack (push (ChainRedisStrategy
                 [RedisFlattenStrategy {["log"]}; RedisSetStratry])
           (VNum 3) "job" (World [] ["x"; "y"])).2 = ["x"]
  /\ (push (ChainRedisStrategy
              [RedisFlattenStrategy {["log"]}; RedisSetStratry])
        (VStr "second") "job"
        (push (ChainRedisStrategy
                 [RedisFlattenStrategy {["log"]}; RedisSetStratry])
           (VStr "first") "job" (World [] ["log"])).2).2
     = World [Rpush "job:log" (VStr "first"); Set_ "job" (VStr "second")] [].
Proof.
  split.
  - apply (proj1 (proj2 (proj2 (proj2 (proj2
      (push_pops_path_stack {["log"]} (VNum 3) "job"
         (World [] ["x"; "y"]))))))).
    discriminate.
  - assert (Hc : flatten_claims {["log"]} (VStr "first") (World [] ["log"])).
    { exists "log". split; [reflexivity|]. split; [reflexivity|].
      by vm_compute. }
    destruct (proj2 (proj2 (proj2 (proj2 (proj2
      (push_pops_path_stack {["log"]} (VStr "first") "job"
         (World [] ["log"])))))) (VStr "second") Hc eq_refl) as [_ Hpush].
    rewrite Hpush. by vm_compute.
Defined.

End RedisFacts.

(** ** Facts about the TaskLogger *)

Section TaskLoggerFacts.
Import TaskLogger.

Variable E : env.

Implicit Types (s : state) (k : string) (st : step) (c : call) (h : handle).

(** The unfolding of the monad's operations. *)
Ltac unfold_m :=
  unfold touch_lastUpdate, bind, ret, throw, the_step, assign, store, emit,
    getTime, set_handler, set_fatal, set_finished, set_step, fresh_ref,
    watch, post in *.

Ltac unfold_h :=
  unfold h_start, h_getReference, h_getLogsReference,
    h_getLastUpdateReference, h_write, h_debug, h_warn, h_info, h_finish,
    h_resetCreationTimeStamp, h_getStatus in *.

Lemma alter_Some (m : gmap string step) k st (f : step -> step) :
  m !! k = Some st -> alter f k m = <[k := f st]> m.
Proof.
  intros Hk. apply map_eq. intros j.
  destruct (decide (k = j)) as [->|Hne].
  - by rewrite lookup_alter_eq, lookup_insert_eq, Hk.
  - by rewrite lookup_alter_ne, lookup_insert_ne.
Qed.

Lemma resolve_terminal err skip hasW :
  terminal (resolve err skip hasW) = true.
Proof. by destruct err, skip, hasW. Qed.

Lemma h_finish_open s k st err skip :
  fatal s = false -> steps s !! k = Some st ->
  open_status (step_status st) = true ->
  h_finish E k err skip s
  = (Return RUndefined,
     State (listening s) (proto_status s) false (finished s)
       (<[k := finished_step st err skip (clock E (ticks s))]> (steps s))
       None (pushed s)
       (writes s
        ++ finish_writes st err skip (clock E (ticks s))
             (clock E (S (ticks s))))
       (watchers s) (events s) (posts s) (S (S (ticks s)))).
Proof.
  intros Hf Hk Hopen. unfold h_finish. rewrite Hf. unfold_m.
  rewrite Hk, Hopen. unfold finish_writes, finished_step.
  destruct err as [e|], skip; simpl;
    rewrite ?lookup_alter_eq, ?Hk; simpl;
    try (destruct (hasWarning st) eqn:Hw; simpl);
    rewrite ?lookup_alter_eq, ?Hk; simpl;
    rewrite ?alter_alter_eq, (alter_Some _ _ st), Hf by done;
    unfold compose, with_status, with_finishTimeStamp; simpl;
    rewrite <- ?app_assoc; simpl; try rewrite Hw; reflexivity.
Qed.

Lemma h_finish_closed s k st err skip :
  fatal s = false -> steps s !! k = Some st ->
  open_status (step_status st) = false ->
  exists msg arg,
    h_finish E k err skip s
    = (if listening s then Return RUndefined
       else Throw (EmittedError msg arg),
       (emit (ErrorEvent msg arg) s).2).
Proof.
  intros Hf Hk Hopen. unfold h_finish. rewrite Hf. unfold_m.
  rewrite Hk, Hopen.
  destruct err; simpl; do 2 eexists; by destruct (listening s).
Qed.

(** The four ways a [finish] on a handler can go. *)
Lemma h_finish_cases s k err skip :
  (fatal s = true /\ h_finish E k err skip s = (Return RUndefined, s))
  \/ (fatal s = false /\ steps s !! k = None
      /\ h_finish E k err skip s
         = (Throw (TypeError "no step behind this handler"), s))
  \/ (exists st, fatal s = false /\ steps s !! k = Some st
      /\ open_status (step_status st) = true
      /\ h_finish E k err skip s
         = (Return RUndefined,
            State (listening s) (proto_status s) false (finished s)
              (<[k := finished_step st err skip (clock E (ticks s))]>
                 (steps s))
              None (pushed s)
              (writes s
               ++ finish_writes st err skip (clock E (ticks s))
                    (clock E (S (ticks s))))
              (watchers s) (events s) (posts s) (S (S (ticks s)))))
  \/ (exists st msg arg, fatal s = false /\ steps s !! k = Some st
      /\ open_status (step_status st) = false
      /\ h_finish E k err skip s
         = (if listening s then Return RUndefined
            else Throw (EmittedError msg arg),
            (emit (ErrorEvent msg arg) s).2)).
Proof.
  destruct (fatal s) eqn:Hf.
  { left. split; [done|]. unfold h_finish. by rewrite Hf. }
  destruct (steps s !! k) as [st|] eqn:Hk.
  2:{ right; left. repeat split. unfold h_finish. rewrite Hf. unfold_m.
      by rewrite Hk. }
  destruct (open_status (step_status st)) eqn:Hopen.
  - right; right; left. exists st. repeat split; try done.
    by apply h_finish_open.
  - right; right; right.
    destruct (h_finish_closed s k st err skip Hf Hk Hopen) as (msg & arg & Heq).
    by exists st, msg, arg.
Qed.

Ltac finish_cases :=
  match goal with
  | |- context [h_finish _ ?k ?e ?sk ?s] =>
      let Heq := fresh "Heq" in
      destruct (h_finish_cases s k e sk)
        as [(? & Heq)|[(? & ? & Heq)|[(? & ? & ? & ? & Heq)
           |(? & ? & ? & ? & ? & ? & Heq)]]];
      rewrite Heq; clear Heq; simpl
  end.

(** *** The fatal latch *)

Lemma invoke_fatal s h c :
  fatal s = true -> mutator c = true ->
  (invoke E h c s).2 = s
  /\ (forall k, h = Handler k -> (invoke E h c s).1 = Return RUndefined).
Proof.
  intros Hf Hm. destruct h as [|k'].
  - split; [|done]. unfold invoke, ret, throw. by case_bool_decide.
  - destruct c; try done; simpl; unfold_h; by rewrite Hf.
Qed.

Lemma create_closed s nm i ev :
  fatal s || finished s = true ->
  create E nm i ev s = (Return NullHandle, s).
Proof. intros Hc. unfold create. by rewrite Hc. Qed.

Lemma invoke_null s c :
  (invoke E NullHandle c s).2 = s.
Proof. unfold invoke, ret, throw. by case_bool_decide. Qed.

Lemma invoke_fatal_flag s h c :
  fatal (invoke E h c s).2 = fatal s.
Proof.
  destruct h as [|k]; [by rewrite invoke_null|].
  destruct c; simpl; try (by finish_cases);
    unfold_h; unfold_m;
    destruct (fatal s) eqn:Hf; try done;
    destruct (steps s !! k) as [st|] eqn:Hk; try done; simpl;
    repeat (first [ case_bool_decide | case_match ]; simpl); done.
Qed.

Lemma inherited_false s key :
  inherited s key = false ->
  bool_decide (key ∈ prototype_keys) = false
  /\ proto_status s && String.eqb key "status" = false.
Proof. unfold inherited. by intros [? ?]%orb_false_elim. Qed.

Lemma not_inherited s : inherited s "Something went wrong" = false.
Proof. unfold inherited. simpl. by rewrite andb_false_r. Qed.

(** The three ways a [create] on an open job can go. *)
Lemma create_new s nm i ev :
  fatal s = false -> finished s = false ->
  steps s !! step_key nm i = None ->
  inherited s (step_key nm i) = false ->
  create E nm i ev s
  = (Return (Handler (step_key nm i)),
     State (listening s) (proto_status s) false false
       (<[step_key nm i :=
            Step nm i (Some (creation_time E s)) PENDING false None
              (StepRef (pushed s))]> (steps s))
       (Some (step_key nm i)) (S (pushed s))
       (writes s
        ++ [PushStep (StepRef (pushed s)) nm i (creation_time E s) PENDING])
       (watchers s ++ [(StepRef (pushed s), nm)]) (events s)
       (posts s
        ++ match ev with Some (url, token) => [(url, token, nm)] | None => [] end)
       (S (ticks s))).
Proof.
  intros Hf Hfin Hk [Hp Hs]%inherited_false.
  unfold create, creation_time. rewrite Hf, Hfin. simpl.
  unfold_m. rewrite Hk, Hp, Hs. simpl. rewrite Hf, Hfin.
  destruct ev as [[url token]|]; simpl; [done|]. by rewrite app_nil_r.
Qed.

Lemma create_inherited s nm i ev :
  fatal s = false -> finished s = false ->
  steps s !! step_key nm i = None ->
  inherited s (step_key nm i) = true ->
  create E nm i ev s
  = (Throw (TypeError
       (if bool_decide (step_key nm i ∈ prototype_keys)
        then "Cannot read property 'update' of undefined"
        else "Cannot create property 'status' on string 'pending'")),
     if String.eqb (step_key nm i) "__proto__" then (pollute s).2 else s).
Proof.
  intros Hf Hfin Hk Hi. unfold create, inherited in *. rewrite Hf, Hfin.
  simpl. unfold_m. rewrite Hk.
  destruct (bool_decide (step_key nm i ∈ prototype_keys)) eqn:Hp; simpl.
  - by destruct (String.eqb (step_key nm i) "__proto__").
  - simpl in Hi. rewrite Hi.
    destruct (String.eqb (step_key nm i) "__proto__") eqn:Heq; [|done].
    apply String.eqb_eq in Heq. rewrite Heq in Hp. done.
Qed.

Lemma create_existing s nm i ev st :
  fatal s = false -> finished s = false ->
  steps s !! step_key nm i = Some st ->
  create E nm i ev s
  = (Return (Handler (step_key nm i)),
     State (listening s) (proto_status s) false false
       (<[step_key nm i := with_status PENDING st]> (steps s))
       (Some (step_key nm i)) (pushed s)
       (writes s ++ [UpdateStep (firebaseRef st) PENDING None])
       (watchers s) (events s) (posts s) (ticks s)).
Proof.
  intros Hf Hfin Hk. unfold create. rewrite Hf, Hfin. simpl.
  unfold_m. rewrite Hk. simpl. by rewrite Hf, Hfin, (alter_Some _ _ st).
Qed.

Ltac create_cases s nm i ev :=
  let Hf := fresh "Hf" in
  let Hfin := fresh "Hfin" in
  let Hk := fresh "Hk" in
  let st := fresh "st" in
  destruct (fatal s) eqn:Hf;
    [rewrite (create_closed s nm i ev) by (by rewrite Hf)|];
    [|destruct (finished s) eqn:Hfin;
      [rewrite (create_closed s nm i ev) by (by rewrite Hf, Hfin)|]];
    [| |destruct (steps s !! step_key nm i) as [st|] eqn:Hk;
        [rewrite (create_existing s nm i ev st) by done
        |let Hi := fresh "Hi" in
         assert (inherited s (step_key nm i) = false
                 \/ inherited s (step_key nm i) = true) as [Hi|Hi]
           by (destruct (inherited s (step_key nm i)); auto);
         [rewrite (create_new s nm i ev) by done
         |rewrite (create_inherited s nm i ev) by done;
          destruct (String.eqb (step_key nm i) "__proto__")]]];
    simpl.

Lemma create_fatal_flag s nm i ev :
  fatal (create E nm i ev s).2 = fatal s.
Proof. by create_cases s nm i ev. Qed.

Lemma step_op_fatal o s :
  fatal s = true -> fatal (step_op E o s) = true.
Proof.
  intros Hf. destruct o as [nm i ev|h c|err|err|r val|evn]; simpl.
  - by rewrite create_fatal_flag.
  - by rewrite invoke_fatal_flag.
  - unfold finish. by rewrite Hf.
  - unfold fatalError. destruct err; by rewrite ?Hf.
  - unfold on_value. by repeat case_match.
  - done.
Qed.

Lemma run_fatal ops s :
  fatal s = true -> fatal (run E ops s) = true.
Proof.
  revert s. induction ops as [ | o ops IH]; intros s Hf; [done|].
  apply IH. by apply step_op_fatal.
Qed.

(** C7.  Once [fatal] is set, each of [start], [write], [debug],
    [info], [warn], [finish] and [resetCreationTimeStamp], on any
    handle, leaves the whole state of the job as it was: no store write,
    no status change, no event; on a handler of a step the call returns
    normally.  The flag stays set through every later operation. *)
Theorem fatal_silences_handles s h c :
  fatal s = true -> mutator c = true ->
  (invoke E h c s).2 = s
  /\ (forall k, h = Handler k -> invoke E h c s = (Return RUndefined, s))
  /\ (forall ops, fatal (run E ops s) = true).
Proof.
  intros Hf Hm. destruct (invoke_fatal s h c Hf Hm) as [Hs Hr].
  split; [done|]. split.
  - intros k ->. specialize (Hr k eq_refl).
    destruct (invoke E (Handler k) c s) as [o s']. simpl in *. by subst.
  - intros ops. by apply run_fatal.
Qed.

(** C4.  [fatalError] with a falsy argument throws to its caller and
    changes nothing, the fatal flag included: whatever is done next
    goes as if the call had not been made. *)
Theorem fatalError_without_error s :
  fatalError E None s
  = (Throw (CFError "fatalError was called without an error. not valid."), s)
  /\ fatal (fatalError E None s).2 = fatal s
  /\ (forall ops, run E (FatalError None :: ops) s = run E ops s).
Proof. done. Qed.

(** *** finish on an open step *)

(** C1, as the code has it.  On a job that is not fatal, [finish(err,
    skip)] on a pending or running step returns normally and leaves the
    step with a terminal status, the one it also sends to the store:
    [skipped] when [err] and [skip] are both truthy, [error] when only
    [err] is, [warning] when [err] is falsy and [hasWarning] is set
    (whatever [skip] is), and otherwise [skipped] for a truthy [skip] and
    [success] for a falsy one. *)
Theorem finish_resolution s k st err skip :
  fatal s = false -> steps s !! k = Some st ->
  open_status (step_status st) = true ->
  (invoke E (Handler k) (Finish err skip) s).1 = Return RUndefined
  /\ exists st',
       steps (invoke E (Handler k) (Finish err skip) s).2 !! k = Some st'
       /\ step_status st'
          = match err, skip, hasWarning st with
            | Some _, true, _ => SKIPPED
            | Some _, false, _ => ERROR
            | None, _, true => WARNING
            | None, true, false => SKIPPED
            | None, false, false => SUCCESS
            end
       /\ terminal (step_status st') = true
       /\ UpdateStep (firebaseRef st) (step_status st') (finishTimeStamp st')
          ∈ writes (invoke E (Handler k) (Finish err skip) s).2.
Proof.
  intros Hf Hk Hopen. simpl. rewrite (h_finish_open s k st) by done. simpl.
  split; [done|]. eexists. rewrite lookup_insert_eq. split; [done|]. simpl.
  split; [done|]. split; [apply resolve_terminal|].
  unfold finish_writes. set_solver.
Qed.

(** *** The object returned by a closed job *)

(** C2.  On a job that is fatal or finished [create] changes nothing and
    returns the object literal; its eight methods return at once and
    change nothing; but the object has no [start], no
    [resetCreationTimeStamp] and no [getStatus]: calling one of them is
    a [TypeError]. *)
Theorem null_handle_methods s nm i ev :
  fatal s || finished s = true ->
  create E nm i ev s = (Return NullHandle, s)
  /\ (forall c, method_name c ∈ null_object ->
      invoke E NullHandle c s = (Return RUndefined, s))
  /\ invoke E NullHandle Start s
     = (Throw (TypeError "start is not a function"), s)
  /\ invoke E NullHandle ResetCreationTimeStamp s
     = (Throw (TypeError "resetCreationTimeStamp is not a function"), s)
  /\ invoke E NullHandle GetStatus s
     = (Throw (TypeError "getStatus is not a function"), s).
Proof.
  intros Hc. split; [by apply create_closed|]. split; [|done].
  intros c Hin. unfold invoke, ret. by rewrite bool_decide_eq_true_2.
Qed.

(** *** The handler variable *)

Lemma wf_init : wf (init_state E).
Proof. by intros k. Qed.

Lemma invoke_wf s h c : wf s -> wf (invoke E h c s).2.
Proof.
  intros Hwf. destruct h as [|k']; [by rewrite invoke_null|].
  destruct c; simpl; try (finish_cases; by try done);
    unfold_h; unfold_m;
    destruct (fatal s) eqn:Hf; try done;
    destruct (steps s !! k') as [st|] eqn:Hk; try done; simpl;
    repeat (first [ case_bool_decide | case_match ]; simpl); try done.
  - intros k0 Hh. simpl in *. destruct (Hwf k0 Hh) as (st0 & Hk0 & Hopen0).
    destruct (decide (k' = k0)) as [->|Hne].
    + rewrite lookup_alter_eq, Hk. simpl. by eexists.
    + rewrite lookup_alter_ne by done. by eexists.
  - intros k0 Hh. simpl in *. destruct (Hwf k0 Hh) as (st0 & Hk0 & Hopen0).
    destruct (decide (k' = k0)) as [->|Hne].
    + rewrite lookup_alter_eq, Hk0. simpl. by eexists.
    + rewrite lookup_alter_ne by done. by eexists.
Qed.

Lemma create_wf s nm i ev : wf s -> wf (create E nm i ev s).2.
Proof.
  intros Hwf. create_cases s nm i ev; try done.
  - intros k [= <-]. simpl. rewrite lookup_insert_eq. by eexists.
  - intros k [= <-]. simpl. rewrite lookup_insert_eq. by eexists.
Qed.

Lemma set_finished_wf s b : wf s -> wf (set_finished b s).2.
Proof. done. Qed.

Lemma set_fatal_wf s b : wf s -> wf (set_fatal b s).2.
Proof. done. Qed.

Lemma finish_wf s err : wf s -> wf (finish E err s).2.
Proof.
  intros Hwf. unfold finish. destruct (fatal s); [done|]. unfold bind.
  destruct (handler s) as [k|] eqn:Hh; [|done].
  pose proof (invoke_wf s (Handler k) (Finish err false) Hwf) as Hwf'.
  simpl in Hwf'.
  destruct (h_finish E k err false s) as [[r|e] s']; [|done].
  by apply set_finished_wf.
Qed.

Lemma fatalError_wf s err : wf s -> wf (fatalError E err s).2.
Proof.
  intros Hwf. unfold fatalError. destruct err as [e|]; [|done].
  destruct (fatal s); [done|]. unfold bind.
  destruct (handler s) as [k|] eqn:Hh.
  - pose proof (invoke_wf s (Handler k) (Finish (Some e) false) Hwf) as Hwf'.
    simpl in Hwf'.
    destruct (h_finish E k (Some e) false s) as [[r|e'] s']; [|done].
    by apply set_fatal_wf.
  - pose proof (create_wf s "Something went wrong" "" None Hwf) as Hwf1.
    destruct (create E "Something went wrong" "" None s) as [[h|e1] s1];
      [|done].
    pose proof (invoke_wf s1 h (Finish (Some e) false) Hwf1) as Hwf2.
    destruct (invoke E h (Finish (Some e) false) s1) as [[r|e2] s2]; [|done].
    by apply set_fatal_wf.
Qed.

Lemma step_op_wf o s : wf s -> wf (step_op E o s).
Proof.
  intros Hwf. destruct o as [nm i ev|h c|err|err|r val|evn]; simpl.
  - by apply create_wf.
  - by apply invoke_wf.
  - by apply finish_wf.
  - by apply fatalError_wf.
  - unfold on_value. by repeat case_match.
  - done.
Qed.

Lemma run_wf ops s : wf s -> wf (run E ops s).
Proof.
  revert s. induction ops as [ | o ops IH]; intros s Hwf; [done|].
  apply IH. by apply step_op_wf.
Qed.

(** Every state that a job reaches from its initial state has the
    property. *)
Lemma reachable_wf ops : wf (run E ops (init_state E)).
Proof. apply run_wf, wf_init. Qed.

(** *** fatalError with an error *)

(** C5, as the code has it.  In a state where [handler], if set, has an
    open step (every state a job can reach): on a fatal job
    [fatalError(err)] with a truthy [err] changes nothing.  Otherwise
    it returns with the flag set, after one of three things: with an
    active handler, that handler's [finish(err)], which leaves its step
    with status [error]; with none and the job not finished,
    [create("Something went wrong")] and [finish(err)] on the handler
    it returns, which leaves the step kept under that key (a new one
    when there was none) with status [error]; with none and the job
    finished, nothing but the flag, since [create] then returns the
    object literal: no step is made or changed. *)
Theorem fatalError_latch s e :
  wf s ->
  (fatal s = true -> fatalError E (Some e) s = (Return (), s))
  /\ (fatal s = false ->
      (fatalError E (Some e) s).1 = Return ()
      /\ fatal (fatalError E (Some e) s).2 = true
      /\ (forall k, handler s = Some k ->
          (fatalError E (Some e) s).2
          = (set_fatal true
               (invoke E (Handler k) (Finish (Some e) false) s).2).2
          /\ exists st',
               steps (fatalError E (Some e) s).2 !! k = Some st'
               /\ step_status st' = ERROR)
      /\ (handler s = None -> finished s = false ->
          (fatalError E (Some e) s).2
          = (set_fatal true
               (invoke E (Handler "Something went wrong")
                  (Finish (Some e) false)
                  (create E "Something went wrong" "" None s).2).2).2
          /\ exists st',
               steps (fatalError E (Some e) s).2 !! "Something went wrong"
               = Some st'
               /\ step_status st' = ERROR
               /\ (steps s !! "Something went wrong" = None ->
                   name st' = "Something went wrong"
                   /\ pushed (fatalError E (Some e) s).2 = S (pushed s)))
      /\ (handler s = None -> finished s = true ->
          (fatalError E (Some e) s).2 = (set_fatal true s).2)).
Proof.
  intros Hwf. split.
  { intros Hf. unfold fatalError. by rewrite Hf. }
  intros Hf. unfold fatalError. rewrite Hf. unfold bind.
  destruct (handler s) as [k|] eqn:Hh.
  - destruct (Hwf k Hh) as (st & Hk & Hopen).
    simpl. rewrite (h_finish_open s k st) by done. simpl.
    split; [done|]. split; [done|]. split; [|split; intros [=]].
    intros k' [= <-]. rewrite (h_finish_open s k st) by done.
    split; [done|].
    eexists. by rewrite lookup_insert_eq.
  - destruct (finished s) eqn:Hfin.
    + rewrite create_closed by (by rewrite Hf, Hfin). simpl.
      unfold ret. simpl. by repeat split.
    + destruct (steps s !! "Something went wrong") as [st|] eqn:Hk.
      * rewrite (create_existing s "Something went wrong" "" None st)
          by done. simpl.
        change (step_key "Something went wrong" "")
          with "Something went wrong".
        erewrite h_finish_open; [|done|apply lookup_insert_eq|done]. simpl.
        split; [done|]. split; [done|]. split; [done|].
        split; [|intros _ [=]].
        intros _ _. split; [done|].
        eexists. rewrite lookup_insert_eq. by repeat split.
      * rewrite (create_new s "Something went wrong" "" None)
          by (done || apply not_inherited). simpl.
        change (step_key "Something went wrong" "")
          with "Something went wrong".
        erewrite h_finish_open; [|done|apply lookup_insert_eq|done]. simpl.
        split; [done|]. split; [done|]. split; [done|].
        split; [|intros _ [=]].
        intros _ _. split; [done|].
        eexists. rewrite lookup_insert_eq. by repeat split.
Qed.

(** *** Steps that have finished *)

Lemma invoke_keeps_terminal s h c k st :
  steps s !! k = Some st -> terminal (step_status st) = true ->
  steps (invoke E h c s).2 !! k = Some st.
Proof.
  intros Hk Hterm. destruct h as [|k']; [by rewrite invoke_null|].
  assert (Hne : forall st', steps s !! k' = Some st' ->
                open_status (step_status st') = true -> k' <> k).
  { intros st' Hk' Hopen ->. rewrite Hk in Hk'. simplify_eq.
    unfold terminal in Hterm. by rewrite Hopen in Hterm. }
  destruct c; simpl;
    try (finish_cases; try done; rewrite lookup_insert_ne; by eauto);
    unfold_h; unfold_m;
    destruct (fatal s) eqn:Hf; try done;
    destruct (steps s !! k') as [st'|] eqn:Hk'; try done; simpl;
    repeat (first [ case_bool_decide | case_match ]; simpl); try done.
  - rewrite lookup_alter_ne; [done|]. apply (Hne st'); [done|].
    by destruct (step_status st').
  - rewrite lookup_alter_ne; [done|]. by apply (Hne st').
Qed.

Lemma invoke_terminal_writes s k st c :
  steps s !! k = Some st -> terminal (step_status st) = true ->
  mutator c = true ->
  steps (invoke E (Handler k) c s).2 = steps s
  /\ writes (invoke E (Handler k) c s).2 = writes s.
Proof.
  intros Hk Hterm Hm.
  assert (Hcl : open_status (step_status st) = false).
  { unfold terminal in Hterm. by destruct (open_status (step_status st)). }
  destruct c; try done; simpl;
    try (finish_cases; simplify_eq; (done || congruence));
    unfold_h; unfold_m;
    destruct (fatal s) eqn:Hf; try done;
    rewrite Hk; simpl; rewrite ?Hcl; simpl;
    try (by destruct (listening s)).
  case_bool_decide as Hp; [by rewrite Hp in Hcl|by destruct (listening s)].
Qed.

(** A logging call on a step that is not open, on a job that is not
    fatal: the ["error"] event, and the throw of the emitter when nobody
    listens. *)
Lemma invoke_refused s k st c :
  fatal s = false -> steps s !! k = Some st ->
  open_status (step_status st) = false -> logging c = true ->
  exists msg arg,
    invoke E (Handler k) c s
    = (if listening s then Return RUndefined
       else Throw (EmittedError msg arg),
       (emit (ErrorEvent msg arg) s).2).
Proof.
  intros Hf Hk Hcl Hlog. destruct c; try done; simpl;
    try (by apply (h_finish_closed s k st));
    unfold_h; unfold_m; rewrite Hf, Hk; simpl; rewrite Hcl; simpl;
    rewrite ?Hf; do 2 eexists; by destruct (listening s).
Qed.

Lemma step_op_keeps_terminal o s k st :
  recreates k o = false ->
  steps s !! k = Some st -> terminal (step_status st) = true ->
  steps (step_op E o s) !! k = Some st.
Proof.
  intros Hno Hk Hterm. destruct o as [nm i ev|h c|err|err|r val|evn]; simpl in *.
  - apply bool_decide_eq_false_1 in Hno.
    create_cases s nm i ev; try done; by rewrite lookup_insert_ne.
  - by apply invoke_keeps_terminal.
  - unfold finish. destruct (fatal s); [done|]. unfold bind.
    destruct (handler s) as [k'|]; [|done].
    pose proof (invoke_keeps_terminal s (Handler k') (Finish err false)
                  k st Hk Hterm) as Hkeep. simpl in Hkeep.
    by destruct (h_finish E k' err false s) as [[r'|e'] s'].
  - apply bool_decide_eq_false_1 in Hno.
    unfold fatalError. destruct err as [e|]; [|done].
    destruct (fatal s); [done|]. unfold bind.
    destruct (handler s) as [k'|].
    + pose proof (invoke_keeps_terminal s (Handler k')
                    (Finish (Some e) false) k st Hk Hterm) as Hkeep.
      simpl in Hkeep.
      by destruct (h_finish E k' (Some e) false s) as [[r'|e'] s'].
    + assert (Hk1 : steps (create E "Something went wrong" "" None s).2 !! k
                    = Some st).
      { create_cases s "Something went wrong" "" (@None (string * string));
          try done;
          by rewrite lookup_insert_ne. }
      destruct (create E "Something went wrong" "" None s) as [[h|e1] s1];
        [|done].
      pose proof (invoke_keeps_terminal s1 h (Finish (Some e) false)
                    k st Hk1 Hterm) as Hkeep.
      by destruct (invoke E h (Finish (Some e) false) s1) as [[r'|e2] s2].
  - unfold on_value. by repeat case_match.
  - done.
Qed.

Lemma run_keeps_terminal ops s k st :
  Forall (fun o => recreates k o = false) ops ->
  steps s !! k = Some st -> terminal (step_status st) = true ->
  steps (run E ops s) !! k = Some st.
Proof.
  intros Hno. revert s. induction Hno as [ | o ops Ho Hno IH]; intros s Hk Hterm;
    [done|].
  simpl. apply IH; [|done]. by apply step_op_keeps_terminal.
Qed.

(** C6, as the code has it.  For a step whose status is terminal, a
    call of [finish], [write], [debug], [info] or [warn] on its handler
    changes no step and no flag and writes nothing.  On a job that is
    not fatal it gives one ["error"] event to the emitter and changes
    nothing else; it then returns normally if a listener of ["error"]
    has been registered, and otherwise ends with the emitter throwing
    the event's error into the caller.  On a fatal job it returns,
    changes nothing and emits nothing.  The step stays as it is through
    every run that does not re-create it, and a [finish] after such a
    run changes no step and writes nothing: between two creations a
    [finish] goes through at most once. *)
Theorem terminal_step_rejects s k st c :
  steps s !! k = Some st -> terminal (step_status st) = true ->
  logging c = true ->
  (fatal s = false ->
   exists msg arg,
     (invoke E (Handler k) c s).2 = (emit (ErrorEvent msg arg) s).2
     /\ (listening s = true ->
         (invoke E (Handler k) c s).1 = Return RUndefined)
     /\ (listening s = false ->
         (invoke E (Handler k) c s).1 = Throw (EmittedError msg arg)))
  /\ (fatal s = true -> invoke E (Handler k) c s = (Return RUndefined, s))
  /\ (forall ops err skip,
      Forall (fun o => recreates k o = false) ops ->
      steps (run E ops s) !! k = Some st
      /\ steps (invoke E (Handler k) (Finish err skip) (run E ops s)).2
         = steps (run E ops s)
      /\ writes (invoke E (Handler k) (Finish err skip) (run E ops s)).2
         = writes (run E ops s)).
Proof.
  intros Hk Hterm Hlog.
  assert (Hcl : open_status (step_status st) = false).
  { unfold terminal in Hterm. by destruct (open_status (step_status st)). }
  split; [|split].
  - intros Hf.
    destruct (invoke_refused s k st c Hf Hk Hcl Hlog) as (msg & arg & ->).
    exists msg, arg. split; [done|]. by split; intros ->.
  - intros Hf. destruct c; try done; simpl; unfold_h; by rewrite Hf.
  - intros ops err skip Hno.
    pose proof (run_keeps_terminal ops s k st Hno Hk Hterm) as Hk'.
    split; [done|].
    by apply (invoke_terminal_writes _ k st).
Qed.

(** *** Creating a step again *)

Lemma logs_of_updates r ws n r' (v : status) fin :
  logs_of r (ws ++ replicate n (UpdateStep r' v fin)) = logs_of r ws.
Proof.
  unfold logs_of. rewrite omap_app.
  replace (omap _ (replicate n (UpdateStep r' v fin))) with (@nil string);
    [by rewrite app_nil_r|].
  induction n as [ | n IH]; [done|]. exact IH.
Qed.

Lemma run_creates_cons nm i ev cs s :
  run E (creates ((nm, i, ev) :: cs)) s
  = run E (creates cs) (create E nm i ev s).2.
Proof. done. Qed.

Lemma recreate_existing cs k :
  Forall (fun a => args_key a = k) cs ->
  forall s st,
    fatal s = false -> finished s = false -> steps s !! k = Some st ->
    fatal (run E (creates cs) s) = false
    /\ finished (run E (creates cs) s) = false
    /\ steps (run E (creates cs) s)
       = match cs with
         | [] => steps s
         | _ => <[k := with_status PENDING st]> (steps s)
         end
    /\ pushed (run E (creates cs) s) = pushed s
    /\ writes (run E (creates cs) s)
       = writes s
         ++ replicate (length cs) (UpdateStep (firebaseRef st) PENDING None).
Proof.
  induction 1 as [ | [[nm i] ev] cs Hc Hcs IH]; intros s st Hf Hfin Hk.
  { simpl. by rewrite app_nil_r. }
  unfold args_key in Hc. simpl in Hc. subst k.
  rewrite run_creates_cons, (create_existing s nm i ev st) by done.
  cbn [snd].
  match goal with
  | |- context [run E (creates cs) ?s1] =>
      destruct (IH s1 (with_status PENDING st))
        as (Hf' & Hfin' & Hst & Hp & Hw);
        [done|done|apply lookup_insert_eq|]
  end.
  rewrite Hf', Hfin', Hst, Hp, Hw. simpl.
  repeat split.
  - destruct cs; [done|]. by rewrite insert_insert_eq.
  - by rewrite <- app_assoc.
Qed.

(** C3, as the code has it.  On a job that is neither fatal nor
    finished, and for a key [id || name] that names nothing the step
    table inherits from [Object.prototype] (for an inherited name
    [create] throws and makes no step), after any non-empty run of
    [create] calls with that key there is one step under the key, and
    at most one entry was pushed for it: none when the step was there
    before.  A step
    that was there before is the same object with its status set to
    [pending]: its name, id, creation time, store reference, its
    [hasWarning] and also its in-memory [finishTimeStamp] are as they
    were.  Each of the calls sends [{status: "pending", finishTimeStamp:
    ""}] to the step's entry and nothing else, so the log lines sent to
    the entry are as they were. *)
Theorem recreate_keeps_step s k cs :
  fatal s = false -> finished s = false -> inherited s k = false ->
  Forall (fun a => args_key a = k) cs -> cs <> [] ->
  dom (steps (run E (creates cs) s)) = {[k]} ∪ dom (steps s)
  /\ pushed (run E (creates cs) s)
     = pushed s + match steps s !! k with Some _ => 0 | None => 1 end
  /\ (forall st, steps s !! k = Some st ->
      steps (run E (creates cs) s) !! k = Some (with_status PENDING st)
      /\ writes (run E (creates cs) s)
         = writes s
           ++ replicate (length cs)
                (UpdateStep (firebaseRef st) PENDING None)
      /\ logs_of (firebaseRef st) (writes (run E (creates cs) s))
         = logs_of (firebaseRef st) (writes s)).
Proof.
  intros Hf Hfin Hi Hcs Hne.
  destruct (steps s !! k) as [st|] eqn:Hk.
  - destruct (recreate_existing cs k Hcs s st Hf Hfin Hk)
      as (_ & _ & Hst & Hp & Hw).
    rewrite Hst, Hp, Hw. destruct cs as [ | c cs]; [done|].
    rewrite dom_insert_L. split; [done|]. split; [lia|].
    intros st' [= <-]. rewrite lookup_insert_eq. split; [done|].
    split; [done|]. apply logs_of_updates.
  - destruct cs as [ | [[nm i] ev] cs]; [done|].
    apply Forall_cons in Hcs as [Hc Hcs]. unfold args_key in Hc.
    simpl in Hc. subst k.
    rewrite run_creates_cons, (create_new s nm i ev) by done.
    cbn [snd].
    match goal with
    | |- context [run E (creates cs) ?s1] =>
        destruct (recreate_existing cs (step_key nm i) Hcs s1
                    (Step nm i (Some (creation_time E s)) PENDING false None
                       (StepRef (pushed s))))
          as (_ & _ & Hst & Hp & Hw);
          [done|done|apply lookup_insert_eq|]
    end.
    rewrite Hst, Hp. simpl.
    split; [|split; [lia|done]].
    destruct cs; rewrite ?insert_insert_eq; by rewrite dom_insert_L.
Qed.

End TaskLoggerFacts.

(** ** Runs of an example job *)

Section Scenarios.
Import TaskLogger.

Lemma finish_resolution_witness :
  fatal warned_job = false
  /\ steps warned_job !! "build"
     = Some (Step "build" "" (Some 1700000000%Z) PENDING true None (StepRef 0))
  /\ (invoke example_env (Handler "build") (Finish None false) warned_job).1
     = Return RUndefined.
Proof.
  split; [reflexivity|]. split; [reflexivity|].
  exact (proj1 (finish_resolution example_env warned_job "build"
    (Step "build" "" (Some 1700000000%Z) PENDING true None (StepRef 0))
    None false eq_refl eq_refl eq_refl)).
Defined.

(** C1 fails as stated: on a pending step with [hasWarning] set,
    [finish(undefined, true)] leaves [warning], not [skipped]; and
    [finish(err, true)] leaves [skipped], not [error]. *)
Lemma finish_resolution_counterexample :
  step_status <$> steps warned_job !! "build" = Some PENDING
  /\ hasWarning <$> steps warned_job !! "build" = Some true
  /\ step_status <$>
       steps (invoke example_env (Handler "build") (Finish None true)
                warned_job).2 !! "build"
     = Some WARNING
  /\ step_status <$>
       steps (invoke example_env (Handler "build") (Finish None true)
                warned_job).2 !! "build"
     <> Some SKIPPED
  /\ step_status <$>
       steps (invoke example_env (Handler "build") (Finish (Some "boom") true)
                warned_job).2 !! "build"
     = Some SKIPPED
  /\ step_status <$>
       steps (invoke example_env (Handler "build") (Finish (Some "boom") true)
                warned_job).2 !! "build"
     <> Some ERROR.
Proof. by vm_compute. Qed.

Lemma null_handle_methods_witness :
  fatal aborted_job || finished aborted_job = true
  /\ create example_env "deploy" "" None aborted_job
     = (Return NullHandle, aborted_job)
  /\ invoke example_env NullHandle Start aborted_job
     = (Throw (TypeError "start is not a function"), aborted_job).
Proof.
  split; [reflexivity|].
  pose proof (null_handle_methods example_env aborted_job "deploy" "" None
                eq_refl) as (Hcreate & _ & Hstart & _).
  by split.
Defined.

Lemma recreate_keeps_step_witness :
  fatal finished_build = false /\ finished finished_build = false
  /\ steps (run example_env
              (creates [("build", "", None); ("build", "", None)])
              finished_build) !! "build"
     = Some (Step "build" "" (Some 1700000000%Z) PENDING false
               (Some 1700000001%Z) (StepRef 0)).
Proof.
  split; [reflexivity|]. split; [reflexivity|].
  assert (Hkey : Forall (fun a => args_key a = "build")
                   [("build", "", None); ("build", "", None)]).
  { repeat constructor. }
  destruct (recreate_keeps_step example_env finished_build "build"
              [("build", "", None); ("build", "", None)]
              eq_refl eq_refl eq_refl Hkey ltac:(discriminate))
    as (_ & _ & Hstep).
  exact (proj1 (Hstep _ eq_refl)).
Defined.

(** C3 fails as stated: creating a finished step again leaves its
    in-memory [finishTimeStamp] as [finish] set it; only the record in
    the store gets the empty one. *)
Lemma recreate_counterexample :
  finishTimeStamp <$> steps finished_build !! "build"
  = Some (Some 1700000001%Z)
  /\ step_status <$> steps (create example_env "build" "" None
                              finished_build).2 !! "build"
     = Some PENDING
  /\ finishTimeStamp <$> steps (create example_env "build" "" None
                                  finished_build).2 !! "build"
     = Some (Some 1700000001%Z)
  /\ finishTimeStamp <$> steps (create example_env "build" "" None
                                  finished_build).2 !! "build"
     <> Some None
  /\ last (writes (create example_env "build" "" None finished_build).2)
     = Some (UpdateStep (StepRef 0) PENDING None).
Proof. by vm_compute. Qed.

Lemma fatalError_latch_witness :
  fatal (init_state example_env) = false
  /\ fatal (fatalError example_env (Some "boom")
              (init_state example_env)).2 = true.
Proof.
  split; [reflexivity|].
  assert (Hwf : wf (init_state example_env)) by (intros k; discriminate).
  destruct (fatalError_latch example_env (init_state example_env) "boom" Hwf)
    as [_ Hopen].
  exact (proj1 (proj2 (Hopen eq_refl))).
Defined.

(** C5 fails as stated: on a finished job with no active handler,
    [fatalError(err)] sets the flag but no step is created and no step
    ends with status [error]; nothing is written. *)
Lemma fatalError_counterexample :
  fatal finished_job = false /\ finished finished_job = true
  /\ handler finished_job = None
  /\ (fatalError example_env (Some "boom") finished_job).1 = Return ()
  /\ fatal (fatalError example_env (Some "boom") finished_job).2 = true
  /\ steps (fatalError example_env (Some "boom") finished_job).2 = ∅
  /\ writes (fatalError example_env (Some "boom") finished_job).2 = [].
Proof. by vm_compute. Qed.

Lemma terminal_step_rejects_witness :
  steps watched_build !! "build"
  = Some (Step "build" "" (Some 1700000000%Z) SUCCESS false
            (Some 1700000001%Z) (StepRef 0))
  /\ listening watched_build = true
  /\ exists msg arg,
       (invoke example_env (Handler "build") (Write "late") watched_build).2
       = (emit (ErrorEvent msg arg) watched_build).2
       /\ (invoke example_env (Handler "build") (Write "late")
             watched_build).1 = Return RUndefined.
Proof.
  split; [reflexivity|]. split; [reflexivity|].
  destruct (terminal_step_rejects example_env watched_build "build"
              (Step "build" "" (Some 1700000000%Z) SUCCESS false
                 (Some 1700000001%Z) (StepRef 0))
              (Write "late") eq_refl eq_refl eq_refl)
    as (Hreject & _).
  destruct (Hreject eq_refl) as (msg & arg & Hstate & Hheard & _).
  exists msg, arg. split; [exact Hstate|exact (Hheard eq_refl)].
Defined.

(** C6 fails as stated: after [fatalError] the step is terminal, and a
    [write] on its handler returns without any ["error"] event.  And on
    a job that is not fatal, with no listener of ["error"], the event
    of a [write] on a finished step comes back to the caller as an
    exception. *)
Lemma terminal_step_counterexample :
  step_status <$> steps aborted_job !! "build" = Some ERROR
  /\ fatal aborted_job = true
  /\ events aborted_job = []
  /\ invoke example_env (Handler "build") (Write "late") aborted_job
     = (Return RUndefined, aborted_job)
  /\ events (invoke example_env (Handler "build") (Write "late")
               aborted_job).2 = []
  /\ step_status <$> steps finished_build !! "build" = Some SUCCESS
  /\ fatal finished_build = false
  /\ listening finished_build = false
  /\ (invoke example_env (Handler "build") (Write "late") finished_build).1
     = Throw (EmittedError
         "progress-logs 'write' handler was triggered after the job finished with message: %s"
         (Some "late")).
Proof. by vm_compute. Qed.

Lemma fatal_silences_handles_witness :
  fatal aborted_job = true
  /\ invoke example_env (Handler "build") (Finish None false) aborted_job
     = (Return RUndefined, aborted_job).
Proof.
  split; [reflexivity|].
  destruct (fatal_silences_handles example_env aborted_job (Handler "build")
              (Finish None false) eq_refl eq_refl) as (_ & Hret & _).
  exact (Hret "build" eq_refl).
Defined.

End Scenarios.

(** ** How the Redis strategies compose *)

Section RedisComposition.
Import Js Redis.

Implicit Types (obj : value) (key : string) (w : world) (keys : gset string).

Lemma set_push_result obj key w :
  (set_push obj key w).1 = Return (VBool true)
  \/ exists e, (set_push obj key w).1 = Throw e.
Proof.
  assert (obj = VNull \/ obj <> VNull) as [->|Hnull]
    by (destruct obj; (by left) || (by right)).
  - right. by eexists.
  - left. by rewrite set_push_handled.
Qed.


(** X2.  A chain that is a member of another chain never takes the write
    for it: its [push] returns [undefined], so the outer scan goes on
    with the strategies after it whether or not the inner chain has
    written the value.  An object given to the catch-all inside an inner
    chain and followed by the catch-all is therefore written twice. *)
Theorem nested_chain_goes_on (inner rest : list strategy) obj key w :
  push (ChainRedisStrategy (ChainRedisStrategy inner :: rest)) obj key w
  = match push (ChainRedisStrategy inner) obj key w with
    | (Return _, w') => push (ChainRedisStrategy rest) obj key w'
    | (Throw e, w') => (Throw e, w')
    end
  /\ forall props,
       push (ChainRedisStrategy
               [ChainRedisStrategy [RedisSetStratry]; RedisSetStratry])
         (VObj props) key w
       = (Return VUndefined,
          World (redis w ++ [Hmset key (hsetKeysValues props);
                             Hmset key (hsetKeysValues props)])
            (stack w)).
Proof.
  split.
  - simpl. unfold chain_push at 1. simpl. unfold chain_push.
    by destruct (some_push inner obj key w) as [[b|e] w'].
  - intros props. simpl. unfold chain_push. simpl.
    unfold chain_push. simpl. unfold issue. simpl.
    by rewrite <- app_assoc.
Qed.

(** X3.  Whatever follows the catch-all in a chain is never asked: the chain
    behaves as the catch-all alone, on every input. *)
Theorem catch_all_shadows (rest : list strategy) obj key w :
  push (ChainRedisStrategy (RedisSetStratry :: rest)) obj key w
  = push (ChainRedisStrategy [RedisSetStratry]) obj key w.
Proof.
  simpl. unfold chain_push. simpl.
  destruct (set_push_result obj key w) as [Hr|[e Hr]];
    destruct (set_push obj key w) as [r w']; simpl in Hr; by subst.
Qed.

(** X4.  In the chain of the flatten strategy followed by the catch-all,
    every value but [null] is written by exactly one command, and the
    path stack is left as it was or one entry shorter: [rpush] when the
    flatten strategy takes the write; otherwise [hmset] for an object
    or on a non-empty stack, and [set] for a value that is not an
    object on an empty stack. *)
Theorem standard_chain_one_command keys obj key w :
  obj <> VNull ->
  exists c st',
    push (ChainRedisStrategy [RedisFlattenStrategy keys; RedisSetStratry])
      obj key w
    = (Return VUndefined, World (redis w ++ [c]) st')
    /\ (st' = stack w \/ st' = removelast (stack w))
    /\ match c with
       | Rpush _ _ => flatten_claims keys obj w
       | Hmset _ _ =>
           ~ flatten_claims keys obj w
           /\ (typeof obj = TObject \/ stack w <> [])
       | Set_ _ _ =>
           ~ flatten_claims keys obj w
           /\ typeof obj <> TObject /\ stack w = []
       end.
Proof.
  intros Hnull. simpl. unfold chain_push. simpl.
  destruct (flatten_claims_dec keys obj w) as [Hc|Hc].
  - destruct Hc as (f & Hst & Hty & Hin).
    rewrite (flatten_push_claim keys obj key w f) by done. simpl.
    eexists _, _. split; [done|]. split.
    + right. by rewrite Hst.
    + by exists f.
  - rewrite flatten_push_decline by done. simpl.
    rewrite set_push_handled by done. simpl.
    destruct obj as [ | | b | n | str | props]; try done;
      try (eexists _, _; split; [done|]; split; [by left|];
           split; [done|]; by left);
      (destruct (last (stack w)) as [f|] eqn:Hl;
       [ eexists _, _; split; [done|]; split; [by right|];
         split; [done|]; right; intros Hst; by rewrite Hst in Hl
       | apply last_None in Hl;
         eexists _, _; split; [done|]; split; [by left|];
         split; [done|]; split; done ]).
Qed.

Lemma standard_chain_one_command_witness :
  exists c st',
    push (ChainRedisStrategy [RedisFlattenStrategy {["log"]}; RedisSetStratry])
      (VNum 7) "job" (World [] ["steps"; "cpu"])
    = (Return VUndefined, World ([] ++ [c]) st').
Proof.
  destruct (standard_chain_one_command {["log"]} (VNum 7) "job"
              (World [] ["steps"; "cpu"]) ltac:(discriminate))
    as (c & st' & Heq & _).
  by exists c, st'.
Defined.

(** X5.  The array given to [hmset] has two entries for each field of the
    object: the field's name at an even index, its value right after. *)
Theorem hsetKeysValues_layout (props : list (string * value)) :
  length (hsetKeysValues props) = 2 * length props
  /\ forall i k v, props !! i = Some (k, v) ->
       hsetKeysValues props !! (2 * i) = Some (VStr k)
       /\ hsetKeysValues props !! (2 * i + 1) = Some v.
Proof.
  rewrite hsetKeysValues_flat. split.
  - induction props as [ | kv props IH]; simpl; [done|]. rewrite IH. lia.
  - induction props as [ | kv props IH]; intros i k v Hi; [done|].
    destruct i as [ | i]; simpl in *.
    + by simplify_eq.
    + replace (i + S (i + 0)) with (S (2 * i)) by lia.
      replace (i + S (i + 0) + 1) with (S (2 * i + 1)) by lia.
      simpl. by apply IH.
Qed.

Lemma hsetKeysValues_layout_witness :
  hsetKeysValues [("a", VNum 1); ("b", VNum 2)] !! (2 * 1) = Some (VStr "b")
  /\ hsetKeysValues [("a", VNum 1); ("b", VNum 2)] !! (2 * 1 + 1)
     = Some (VNum 2).
Proof.
  exact (proj2 (hsetKeysValues_layout [("a", VNum 1); ("b", VNum 2)])
           1 "b" (VNum 2) eq_refl).
Defined.

(** X6.  A chain made of flatten strategies only, none of which takes the
    write, issues no command and leaves the stack alone, and still
    returns [undefined] as after a write: the value is dropped and the
    caller is not told.  The empty chain is the first instance. *)
Theorem flatten_only_chain_drops (kss : list (gset string)) obj key w :
  (forall ks, ks ∈ kss -> ~ flatten_claims ks obj w) ->
  push (ChainRedisStrategy (RedisFlattenStrategy <$> kss)) obj key w
  = (Return VUndefined, w).
Proof.
  intros Hno. simpl. unfold chain_push.
  enough (some_push (RedisFlattenStrategy <$> kss) obj key w
          = (Return false, w)) as -> by done.
  induction kss as [ | ks kss IH]; simpl; [done|].
  rewrite flatten_push_decline by (apply Hno; by left). simpl.
  apply IH. intros ks' Hin. apply Hno. by right.
Qed.

Lemma flatten_only_chain_drops_witness :
  push (ChainRedisStrategy (RedisFlattenStrategy <$> [{["log"]}; {["cpu"]}]))
    (VStr "hello") "job" (World [] ["memory"])
  = (Return VUndefined, World [] ["memory"]).
Proof.
  apply (flatten_only_chain_drops [{["log"]}; {["cpu"]}]).
  intros ks Hin (f & Hst & _ & Hf). simpl in Hst. injection Hst as <-.
  apply list_elem_of_In in Hin. simpl in Hin.
  destruct Hin as [<-|[<-|[]]]; by vm_compute in Hf.
Defined.

End RedisComposition.

(** ** More facts about the TaskLogger *)

Section TaskLoggerRuns.
Import TaskLogger.

Variable E : env.

Implicit Types (s : state) (k : string) (st : step) (c : call) (h : handle).

Ltac unfold_m :=
  unfold touch_lastUpdate, bind, ret, throw, the_step, assign, store, emit,
    getTime, set_handler, set_fatal, set_finished, set_step, fresh_ref,
    watch, post in *.

Ltac unfold_h :=
  unfold h_start, h_getReference, h_getLogsReference,
    h_getLastUpdateReference, h_write, h_debug, h_warn, h_info, h_finish,
    h_resetCreationTimeStamp, h_getStatus in *.

Ltac finish_cases :=
  match goal with
  | |- context [h_finish _ ?k ?e ?sk ?s] =>
      let Heq := fresh "Heq" in
      destruct (h_finish_cases E s k e sk)
        as [(? & Heq)|[(? & ? & Heq)|[(? & ? & ? & ? & Heq)
           |(? & ? & ? & ? & ? & ? & Heq)]]];
      rewrite Heq; clear Heq; simpl
  end.

Ltac create_cases s nm i ev :=
  let Hf := fresh "Hf" in
  let Hfin := fresh "Hfin" in
  let Hk := fresh "Hk" in
  let st := fresh "st" in
  destruct (fatal s) eqn:Hf;
    [rewrite (create_closed E s nm i ev) by (by rewrite Hf)|];
    [|destruct (finished s) eqn:Hfin;
      [rewrite (create_closed E s nm i ev) by (by rewrite Hf, Hfin)|]];
    [| |destruct (steps s !! step_key nm i) as [st|] eqn:Hk;
        [rewrite (create_existing E s nm i ev st) by done
        |let Hi := fresh "Hi" in
         assert (inherited s (step_key nm i) = false
                 \/ inherited s (step_key nm i) = true) as [Hi|Hi]
           by (destruct (inherited s (step_key nm i)); auto);
         [rewrite (create_new E s nm i ev) by done
         |rewrite (create_inherited E s nm i ev) by done;
          destruct (String.eqb (step_key nm i) "__proto__")]]];
    simpl.

(** A relation between the states before and after that is reflexive,
    transitive and kept by [create], by every call on a handle, by the
    setting of either flag, by the store's echoes and by the
    registration of a listener is kept by every operation, hence by
    every run. *)
Section Lift.

Variable R : state -> state -> Prop.
Hypothesis R_refl : forall s, R s s.
Hypothesis R_trans : forall s1 s2 s3, R s1 s2 -> R s2 s3 -> R s1 s3.
Hypothesis R_create : forall s nm i ev, R s (create E nm i ev s).2.
Hypothesis R_invoke : forall s h c, R s (invoke E h c s).2.
Hypothesis R_finished : forall s, R s (set_finished true s).2.
Hypothesis R_fatal : forall s, R s (set_fatal true s).2.
Hypothesis R_on_value : forall s r val, R s (on_value r val s).2.
Hypothesis R_on : forall s eventName, R s (on eventName s).2.

Lemma step_op_lift o s : R s (step_op E o s).
Proof.
  destruct o as [nm i ev|h c|err|err|r val|evn]; simpl; try done.
  - unfold finish. destruct (fatal s); [done|]. unfold bind.
    destruct (handler s) as [k|]; [|by apply R_finished].
    pose proof (R_invoke s (Handler k) (Finish err false)) as H1.
    simpl in H1.
    destruct (h_finish E k err false s) as [[r'|e'] s1]; [|done].
    eapply R_trans; [exact H1|apply R_finished].
  - unfold fatalError. destruct err as [e|]; [|done].
    destruct (fatal s); [done|]. unfold bind.
    destruct (handler s) as [k|].
    + pose proof (R_invoke s (Handler k) (Finish (Some e) false)) as H1.
      simpl in H1.
      destruct (h_finish E k (Some e) false s) as [[r'|e'] s1]; [|done].
      eapply R_trans; [exact H1|apply R_fatal].
    + pose proof (R_create s "Something went wrong" "" None) as H1.
      destruct (create E "Something went wrong" "" None s) as [[h|e1] s1];
        [|done].
      pose proof (R_invoke s1 h (Finish (Some e) false)) as H2.
      destruct (invoke E h (Finish (Some e) false) s1) as [[r'|e2] s2].
      * eapply R_trans; [exact H1|]. eapply R_trans; [exact H2|].
        apply R_fatal.
      * by eapply R_trans.
  - apply R_on.
Qed.

Lemma run_lift ops s : R s (run E ops s).
Proof.
  revert s. induction ops as [ | o ops IH]; intros s; [done|].
  simpl. eapply R_trans; [apply step_op_lift|apply IH].
Qed.

End Lift.

(** *** What a step keeps *)

Lemma evolves_refl st : evolves st st.
Proof. by repeat split. Qed.

Lemma evolves_trans st1 st2 st3 :
  evolves st1 st2 -> evolves st2 st3 -> evolves st1 st3.
Proof.
  intros (? & ? & ? & ? & ?) (? & ? & ? & ? & ?).
  repeat split; try congruence. auto.
Qed.

Lemma transition_refl a : transition a a.
Proof. by left. Qed.

Lemma invoke_step_at s h c k st :
  steps s !! k = Some st ->
  exists st',
    steps (invoke E h c s).2 !! k = Some st'
    /\ evolves st st'
    /\ transition (step_status st) (step_status st').
Proof.
  intros Hk.
  assert (Hsame : exists st', steps s !! k = Some st' /\ evolves st st'
                    /\ transition (step_status st) (step_status st')).
  { exists st. split; [done|]. split; [apply evolves_refl|by left]. }
  destruct h as [|k']; [by rewrite invoke_null|].
  destruct (decide (k' = k)) as [->|Hne].
  - destruct c; simpl; try done;
      try (finish_cases; try done; simplify_eq;
           rewrite lookup_insert_eq; eexists; split; [done|];
           split; [by repeat split|];
           right; right; split; [done|]; apply resolve_terminal);
      unfold_h; unfold_m;
      destruct (fatal s) eqn:Hf; try done;
      rewrite Hk; simpl;
      repeat (first [ case_bool_decide | case_match ]; simpl); try done;
      rewrite lookup_alter_eq, Hk; simpl; eexists; (split; [done|]);
      (split; [by repeat split|]).
    + right; left. done.
    + by left.
  - destruct c; simpl; try done;
      try (finish_cases; try done; by rewrite lookup_insert_ne);
      unfold_h; unfold_m;
      destruct (fatal s) eqn:Hf; try done;
      destruct (steps s !! k') as [st'|] eqn:Hk'; try done; simpl;
      repeat (first [ case_bool_decide | case_match ]; simpl); try done;
      by rewrite lookup_alter_ne.
Qed.

Lemma invoke_step_none s h c k :
  steps s !! k = None -> steps (invoke E h c s).2 !! k = None.
Proof.
  intros Hk. destruct h as [|k']; [by rewrite invoke_null|].
  destruct (decide (k' = k)) as [->|Hne].
  - destruct c; simpl; try done;
      try (finish_cases; try done; congruence);
      unfold_h; unfold_m;
      destruct (fatal s) eqn:Hf; try done; by rewrite Hk.
  - destruct c; simpl; try done;
      try (finish_cases; try done; by rewrite lookup_insert_ne);
      unfold_h; unfold_m;
      destruct (fatal s) eqn:Hf; try done;
      destruct (steps s !! k') as [st'|] eqn:Hk'; try done; simpl;
      repeat (first [ case_bool_decide | case_match ]; simpl); try done;
      by rewrite lookup_alter_ne.
Qed.

(** Calls on a handle move no flag, no counter and no watcher. *)
Lemma invoke_frame s h c :
  fatal (invoke E h c s).2 = fatal s
  /\ finished (invoke E h c s).2 = finished s
  /\ pushed (invoke E h c s).2 = pushed s
  /\ watchers (invoke E h c s).2 = watchers s
  /\ posts (invoke E h c s).2 = posts s.
Proof.
  destruct h as [|k]; [by rewrite invoke_null|].
  destruct c; simpl; try (by finish_cases);
    unfold_h; unfold_m;
    destruct (fatal s) eqn:Hf; try done;
    destruct (steps s !! k) as [st|] eqn:Hk; try done; simpl;
    repeat (first [ case_bool_decide | case_match ]; simpl); done.
Qed.

Lemma create_step_at s nm i ev k st :
  steps s !! k = Some st ->
  exists st',
    steps (create E nm i ev s).2 !! k = Some st' /\ evolves st st'.
Proof.
  intros Hk.
  create_cases s nm i ev;
    try (exists st; split; [done|apply evolves_refl]).
  - destruct (decide (step_key nm i = k)) as [<-|Hne].
    + simplify_eq. rewrite lookup_insert_eq. eexists. split; [done|].
      by repeat split.
    + rewrite lookup_insert_ne by done. exists st.
      split; [done|apply evolves_refl].
  - rewrite lookup_insert_ne by congruence. exists st.
    split; [done|apply evolves_refl].
Qed.

Lemma run_persists ops s : persists s (run E ops s).
Proof.
  apply run_lift; clear s ops.
  - intros s k st Hk. exists st. split; [done|apply evolves_refl].
  - intros s1 s2 s3 H12 H23 k st Hk.
    destruct (H12 k st Hk) as (st2 & Hk2 & He2).
    destruct (H23 k st2 Hk2) as (st3 & Hk3 & He3).
    exists st3. split; [done|]. by eapply evolves_trans.
  - intros s nm i ev k st Hk. by apply create_step_at.
  - intros s h c k st Hk.
    destruct (invoke_step_at s h c k st Hk) as (st' & ? & ? & _). eauto.
  - intros s k st Hk. exists st. split; [done|apply evolves_refl].
  - intros s k st Hk. exists st. split; [done|apply evolves_refl].
  - intros s r val k st Hk. exists st.
    split; [|apply evolves_refl]. unfold on_value. by repeat case_match.
  - intros s evn k st Hk. exists st. split; [done|apply evolves_refl].
Qed.

(** X7.  No operation removes a step or replaces its object: after any run
    the step is still kept under its key with the name, id, in-memory
    creation time and store entry it had (also after
    [resetCreationTimeStamp], which only writes to the store), so the
    getters of a handler on it answer in every later state, with the
    same locators and the step's current status. *)
Theorem step_persists s k st ops :
  steps s !! k = Some st ->
  exists st',
    steps (run E ops s) !! k = Some st'
    /\ name st' = name st /\ id st' = id st
    /\ creationTimeStamp st' = creationTimeStamp st
    /\ firebaseRef st' = firebaseRef st
    /\ invoke E (Handler k) GetReference (run E ops s)
       = (Return (RLocator (LStep (firebaseRef st))), run E ops s)
    /\ invoke E (Handler k) GetLogsReference (run E ops s)
       = (Return (RLocator (LLogs (firebaseRef st))), run E ops s)
    /\ invoke E (Handler k) GetStatus (run E ops s)
       = (Return (RStatus (step_status st')), run E ops s).
Proof.
  intros Hk. destruct (run_persists ops s k st Hk)
    as (st' & Hk' & Hn & Hi & Hc & Hr & _).
  exists st'. repeat (split; [done|]). simpl. unfold_h. unfold_m.
  by rewrite Hk', Hr.
Qed.

(** X8.  [hasWarning] is never cleared, not even by creating the step
    again: once set it is set after every run, and whenever the step is
    then open on a job that is not fatal, a [finish] without error
    leaves it with status [warning], whether or not [warn] was called
    since the step was last created. *)
Theorem warning_is_never_cleared s k st ops :
  steps s !! k = Some st -> hasWarning st = true ->
  exists st',
    steps (run E ops s) !! k = Some st'
    /\ hasWarning st' = true
    /\ (fatal (run E ops s) = false ->
        open_status (step_status st') = true ->
        forall skip,
          step_status <$>
            steps (invoke E (Handler k) (Finish None skip)
                     (run E ops s)).2 !! k
          = Some WARNING).
Proof.
  intros Hk Hw. destruct (run_persists ops s k st Hk)
    as (st' & Hk' & _ & _ & _ & _ & Hw').
  exists st'. split; [done|]. split; [auto|].
  intros Hf Hopen skip. simpl.
  rewrite (h_finish_open E _ k st') by done. simpl.
  rewrite lookup_insert_eq. simpl. rewrite (Hw' Hw). by destruct skip.
Qed.

(** *** The fatal job *)

Lemma frozen_refl s : frozen s s.
Proof. by repeat split. Qed.

Lemma step_op_frozen o s : fatal s = true -> frozen s (step_op E o s).
Proof.
  intros Hf. destruct o as [nm i ev|h c|err|err|r val|evn]; simpl.
  - rewrite create_closed by (by rewrite Hf). apply frozen_refl.
  - destruct h as [|k]; [rewrite invoke_null; apply frozen_refl|].
    destruct c; simpl; unfold_h; unfold_m; rewrite ?Hf;
      try apply frozen_refl;
      destruct (steps s !! k); apply frozen_refl.
  - unfold finish. rewrite Hf. apply frozen_refl.
  - unfold fatalError. destruct err; rewrite ?Hf; apply frozen_refl.
  - unfold on_value. repeat case_match; by repeat split.
  - by repeat split.
Qed.

Lemma run_frozen s ops :
  fatal s = true -> frozen s (run E ops s).
Proof.
  revert s. induction ops as [ | o ops IH]; intros s Hf;
    [apply frozen_refl|].
  simpl. pose proof (step_op_frozen o s Hf) as Ho.
  assert (Hf' : fatal (step_op E o s) = true)
    by (destruct Ho as (-> & _); done).
  specialize (IH _ Hf'). unfold frozen in *.
  destruct Ho as (? & ? & ? & ? & ? & ? & ? & ?).
  destruct IH as (? & ? & ? & ? & ? & ? & ? & ?).
  repeat split; congruence.
Qed.

(** X9.  Once [fatal] is set the job is silent for good: through every run,
    whatever its operations, no step changes, nothing is written to the
    store, nothing is posted, the clock is not read, and the flags, the
    handler variable and the push counter stay as they are. *)
Theorem fatal_freezes s ops :
  fatal s = true -> frozen s (run E ops s).
Proof. apply run_frozen. Qed.

(** *** The finished job *)

(** X10.  [finish] of the job is idempotent: in a state where [handler], if
    set, has an open step, a second [finish], with whatever argument,
    returns and changes nothing. *)
Theorem job_finish_idempotent s e1 e2 :
  wf s ->
  finish E e2 (finish E e1 s).2 = (Return (), (finish E e1 s).2).
Proof.
  intros Hwf. unfold finish at 2 3. destruct (fatal s) eqn:Hf.
  { simpl. unfold finish. by rewrite Hf. }
  unfold bind. destruct (handler s) as [k|] eqn:Hh.
  - destruct (Hwf k Hh) as (st & Hk & Hopen).
    rewrite (h_finish_open E s k st) by done. simpl. by unfold finish.
  - simpl. unfold finish. simpl. by rewrite Hf, Hh.
Qed.

Lemma invoke_dom s h c :
  dom (steps (invoke E h c s).2) = dom (steps s).
Proof.
  apply set_eq. intros k. rewrite !elem_of_dom.
  destruct (steps s !! k) as [st|] eqn:Hk.
  - destruct (invoke_step_at s h c k st Hk) as (st' & -> & _).
    split; by eauto.
  - by rewrite invoke_step_none.
Qed.

(** X11.  [finished] is a latch too, and a finished job takes no new step:
    after any run from a finished state the flag is still set, [create]
    returns the object literal and changes nothing, and the job has the
    steps and the entries it had. *)
Theorem finished_closes_create s ops nm i ev :
  finished s = true ->
  finished (run E ops s) = true
  /\ create E nm i ev (run E ops s) = (Return NullHandle, run E ops s)
  /\ dom (steps (run E ops s)) = dom (steps s)
  /\ pushed (run E ops s) = pushed s.
Proof.
  intros Hfin.
  enough (Hrun : finished (run E ops s) = true
                 /\ dom (steps (run E ops s)) = dom (steps s)
                 /\ pushed (run E ops s) = pushed s).
  { destruct Hrun as (Hfin' & ? & ?). repeat split; try done.
    apply create_closed. rewrite Hfin'. by destruct (fatal _). }
  revert Hfin.
  apply (run_lift (fun s s' => finished s = true ->
           finished s' = true /\ dom (steps s') = dom (steps s)
           /\ pushed s' = pushed s)); clear s ops.
  - done.
  - intros s1 s2 s3 H12 H23 Hfin.
    destruct (H12 Hfin) as (Hfin2 & Hd2 & Hp2).
    destruct (H23 Hfin2) as (Hfin3 & Hd3 & Hp3).
    repeat split; congruence.
  - intros s nm' i' ev' Hfin.
    rewrite create_closed; [done|]. rewrite Hfin. by destruct (fatal s).
  - intros s h c Hfin.
    destruct (invoke_frame s h c) as (_ & -> & -> & _).
    by rewrite invoke_dom.
  - done.
  - done.
  - intros s r val Hfin. unfold on_value. by repeat case_match.
  - done.
Qed.

(** *** The moves of a status *)

Lemma transition_trans (a b d : status) :
  transition a b -> transition b d -> transition a d.
Proof.
  unfold transition, terminal.
  destruct a, b, d; simpl; intuition congruence.
Qed.

Lemma step_op_transition o s k st :
  recreates k o = false -> steps s !! k = Some st ->
  exists st',
    steps (step_op E o s) !! k = Some st'
    /\ transition (step_status st) (step_status st').
Proof.
  intros Hno Hk.
  assert (Hinv : forall s0 h c st0, steps s0 !! k = Some st0 ->
            exists st', steps (invoke E h c s0).2 !! k = Some st'
              /\ transition (step_status st0) (step_status st')).
  { intros s0 h c st0 Hk0.
    destruct (invoke_step_at s0 h c k st0 Hk0) as (st' & ? & _ & ?). eauto. }
  destruct o as [nm i ev|h c|err|err|r val|evn]; simpl in *.
  - apply bool_decide_eq_false_1 in Hno. exists st. split; [|by left].
    create_cases s nm i ev; try done; by rewrite lookup_insert_ne.
  - by apply Hinv.
  - unfold finish. destruct (fatal s); [exists st; split; [done|by left]|].
    unfold bind. destruct (handler s) as [k'|];
      [|exists st; split; [done|by left]].
    pose proof (Hinv s (Handler k') (Finish err false) st Hk) as Hkeep.
    simpl in Hkeep.
    by destruct (h_finish E k' err false s) as [[r'|e'] s'].
  - apply bool_decide_eq_false_1 in Hno.
    unfold fatalError. destruct err as [e|];
      [|exists st; split; [done|by left]].
    destruct (fatal s); [exists st; split; [done|by left]|]. unfold bind.
    destruct (handler s) as [k'|].
    + pose proof (Hinv s (Handler k') (Finish (Some e) false) st Hk)
        as Hkeep. simpl in Hkeep.
      by destruct (h_finish E k' (Some e) false s) as [[r'|e'] s'].
    + assert (Hk1 : steps (create E "Something went wrong" "" None s).2 !! k
                    = Some st).
      { create_cases s "Something went wrong" "" (@None (string * string));
          try done; by rewrite lookup_insert_ne. }
      destruct (create E "Something went wrong" "" None s) as [[h|e1] s1];
        [|exists st; split; [done|by left]].
      pose proof (Hinv s1 h (Finish (Some e) false) st Hk1) as Hkeep.
      by destruct (invoke E h (Finish (Some e) false) s1) as [[r'|e2] s2].
  - exists st. split; [|by left]. unfold on_value. by repeat case_match.
  - exists st. split; [done|by left].
Qed.

(** X12.  The status of a step moves along [pending -> running -> terminal]
    and in no other way, as long as the step is not created again:
    through every run that does not re-create it, its status stays, or
    goes from [pending] to [running], or from [pending] or [running] to
    a terminal one; a running step does not become pending and a
    terminal one does not move. *)
Theorem status_moves_forward s k st ops :
  steps s !! k = Some st ->
  Forall (fun o => recreates k o = false) ops ->
  exists st',
    steps (run E ops s) !! k = Some st'
    /\ transition (step_status st) (step_status st').
Proof.
  intros Hk Hno. revert s st Hk.
  induction Hno as [ | o ops Ho Hno IH]; intros s st Hk.
  { exists st. split; [done|by left]. }
  destruct (step_op_transition o s k st Ho Hk) as (st1 & Hk1 & Ht1).
  destruct (IH _ _ Hk1) as (st2 & Hk2 & Ht2).
  exists st2. split; [done|]. by eapply transition_trans.
Qed.

(** *** start *)

(** X13.  On a job that is not fatal, [start] moves a pending step to
    [running] and writes the new status to the job's own [status], not
    to the step's entry; on a step that is not pending, a running one
    included, it emits one ["error"] event that carries the step's
    status and changes nothing else: with a listener of ["error"]
    registered the call returns, with none the emitter throws the
    event's error into the caller.  So the second of two [start] calls
    in a row is refused. *)
Theorem start_only_from_pending s k st :
  fatal s = false -> steps s !! k = Some st ->
  (step_status st = PENDING ->
   invoke E (Handler k) Start s
   = (Return RUndefined,
      State (listening s) (proto_status s)
        false (finished s) (<[k := with_status RUNNING st]> (steps s))
        (handler s) (pushed s) (writes s ++ [SetJobStatus RUNNING])
        (watchers s) (events s) (posts s) (ticks s))
   /\ invoke E (Handler k) Start (invoke E (Handler k) Start s).2
      = (if listening s then Return RUndefined
         else Throw (EmittedError
            "progress-logs 'start' handler was triggered when the step status is: %s"
            (Some "running")),
         (emit (ErrorEvent
            "progress-logs 'start' handler was triggered when the step status is: %s"
            (Some "running")) (invoke E (Handler k) Start s).2).2))
  /\ (step_status st <> PENDING ->
      invoke E (Handler k) Start s
      = (if listening s then Return RUndefined
         else Throw (EmittedError
            "progress-logs 'start' handler was triggered when the step status is: %s"
            (Some (status_string (step_status st)))),
         (emit (ErrorEvent
            "progress-logs 'start' handler was triggered when the step status is: %s"
            (Some (status_string (step_status st)))) s).2)).
Proof.
  intros Hf Hk. split.
  - intros Hp.
    assert (H1 : invoke E (Handler k) Start s
      = (Return RUndefined,
         State (listening s) (proto_status s)
           false (finished s) (<[k := with_status RUNNING st]> (steps s))
           (handler s) (pushed s) (writes s ++ [SetJobStatus RUNNING])
           (watchers s) (events s) (posts s) (ticks s))).
    { simpl. unfold h_start. rewrite Hf. unfold_m. rewrite Hk. simpl.
      rewrite bool_decide_eq_true_2 by done. simpl.
      by rewrite Hf, (alter_Some _ _ st). }
    split; [done|]. rewrite H1. simpl. unfold h_start. simpl. unfold_m.
    simpl. rewrite lookup_insert_eq. simpl. by destruct (listening s).
  - intros Hp. simpl. unfold h_start. rewrite Hf. unfold_m. rewrite Hk.
    simpl. rewrite bool_decide_eq_false_2 by done. rewrite Hf.
    by destruct (listening s).
Qed.

(** *** The store's echo *)

(** X14.  The watcher of a new step fires once: an echo for an entry and a
    name with no armed watcher changes nothing, and after any echo the
    same echo again changes nothing, so ["step-pushed"] is emitted at
    most once for an entry.  An echo never touches a step, a flag or
    the store. *)
Theorem on_value_fires_once s (r : ref) (val : option string) :
  on_value r val (on_value r val s).2 = (Return (), (on_value r val s).2)
  /\ (forall nm, val = Some nm -> (r, nm) ∉ watchers s ->
      on_value r val s = (Return (), s))
  /\ steps (on_value r val s).2 = steps s
  /\ writes (on_value r val s).2 = writes s
  /\ fatal (on_value r val s).2 = fatal s
  /\ finished (on_value r val s).2 = finished s.
Proof.
  split; [|split].
  - unfold on_value at 2 3. destruct val as [nm|]; [|done].
    case_bool_decide as Hin; [|simpl; unfold on_value;
                               by rewrite bool_decide_eq_false_2].
    simpl. unfold on_value. simpl.
    rewrite bool_decide_eq_false_2; [done|].
    intros Hin'. apply list_elem_of_filter in Hin' as [Hne _]. done.
  - intros nm -> Hnot. unfold on_value. by rewrite bool_decide_eq_false_2.
  - unfold on_value. by repeat case_match.
Qed.

(** *** addErrorMessageToEndOfSteps *)

Lemma forEach_push_writes message entries s :
  forEach_push message entries s
  = (Return (),
     State (listening s) (proto_status s) (fatal s) (finished s) (steps s)
     (handler s) (pushed s)
       (writes s ++ ((fun r => PushLog r (red message)) <$> entries))
       (watchers s) (events s) (posts s) (ticks s)).
Proof.
  revert s. induction entries as [ | r entries IH]; intros s; simpl.
  - unfold ret. rewrite app_nil_r. by destruct s.
  - unfold bind, store. simpl. rewrite IH. simpl.
    by rewrite <- app_assoc.
Qed.

(** X15.  [addErrorMessageToEndOfSteps] looks at no flag and no status: on
    any job, a fatal or finished one included, and for any step, a
    terminal one included, it sends the message as one red line to the
    logs of every entry in the store's answer, in order.  That is all
    it does: no step, flag, handler or event changes, [lastUpdate] is
    not touched, and with an empty answer nothing is written. *)
Theorem addErrorMessage_ignores_latches message (snapshot : list ref) s :
  addErrorMessageToEndOfSteps message snapshot s
  = (Return (),
     State (listening s) (proto_status s) (fatal s) (finished s) (steps s)
     (handler s) (pushed s)
       (writes s ++ ((fun r => PushLog r (red message)) <$> snapshot))
       (watchers s) (events s) (posts s) (ticks s))
  /\ (forall r, snapshot = [r] ->
      logs_of r (writes (addErrorMessageToEndOfSteps message snapshot s).2)
      = logs_of r (writes s) ++ [red message])
  /\ (snapshot = [] ->
      addErrorMessageToEndOfSteps message snapshot s = (Return (), s)).
Proof.
  unfold addErrorMessageToEndOfSteps. rewrite forEach_push_writes.
  split; [done|]. split.
  - intros r ->. simpl. unfold logs_of. rewrite omap_app. simpl.
    by rewrite decide_True.
  - intros ->. simpl. rewrite app_nil_r. by destruct s.
Qed.

(** *** finish of the job *)

(** X16.  [finish(err)] of the job, in a state where [handler], if set, has
    an open step: on a fatal job it changes nothing, and does not set
    [finished]; otherwise it returns with [finished] set and [handler]
    cleared, having finished the active handler's step (with [error]
    for a truthy [err], else [warning] if the step has warned, else
    [success]) or, with no active handler, having touched no step and
    written nothing. *)
Theorem job_finish_closes s err :
  wf s ->
  (fatal s = true -> finish E err s = (Return (), s))
  /\ (fatal s = false ->
      (finish E err s).1 = Return ()
      /\ finished (finish E err s).2 = true
      /\ handler (finish E err s).2 = None
      /\ fatal (finish E err s).2 = false
      /\ (forall k st, handler s = Some k -> steps s !! k = Some st ->
          step_status <$> steps (finish E err s).2 !! k
          = Some match err with
                 | Some _ => ERROR
                 | None => if hasWarning st then WARNING else SUCCESS
                 end)
      /\ (handler s = None ->
          steps (finish E err s).2 = steps s
          /\ writes (finish E err s).2 = writes s)).
Proof.
  intros Hwf. split.
  { intros Hf. unfold finish. by rewrite Hf. }
  intros Hf. unfold finish. rewrite Hf. unfold bind.
  destruct (handler s) as [k|] eqn:Hh.
  - destruct (Hwf k Hh) as (st & Hk & Hopen).
    rewrite (h_finish_open E s k st) by done. simpl.
    repeat (split; [done|]). split; [|done].
    intros k' st' [= <-] Hk'. simplify_eq. rewrite lookup_insert_eq. simpl.
    by destruct err, (hasWarning st).
  - simpl. rewrite Hf. do 4 (split; [done|]). split; [by intros k st [=]|].
    by intros _.
Qed.

(** *** Steps that fatalError leaves open *)

(** X17.  [fatalError] finishes one step only.  A step that is neither the
    active handler's nor kept under ["Something went wrong"] is left as
    it is by [fatalError], and then stays so through every run, since
    the job is fatal: if it was pending or running, it is never
    finished. *)
Theorem fatalError_leaves_other_steps s e k st ops :
  wf s -> fatal s = false -> steps s !! k = Some st ->
  handler s <> Some k -> k <> "Something went wrong" ->
  fatal (fatalError E (Some e) s).2 = true
  /\ steps (run E ops (fatalError E (Some e) s).2) !! k = Some st.
Proof.
  intros Hwf Hf Hk Hh Hne.
  assert (Hfe : fatal (fatalError E (Some e) s).2 = true
                /\ steps (fatalError E (Some e) s).2 !! k = Some st).
  { unfold fatalError. rewrite Hf. unfold bind.
    destruct (handler s) as [k'|] eqn:Hh'.
    - destruct (Hwf k' Hh') as (st' & Hk' & Hopen).
      rewrite (h_finish_open E s k' st') by done. simpl.
      split; [done|]. rewrite lookup_insert_ne; [done|congruence].
    - create_cases s "Something went wrong" "" (@None (string * string));
        try done;
        try (exfalso;
             match goal with
             | H : inherited _ _ = true |- _ =>
                 by rewrite (not_inherited s
                             : inherited s (step_key "Something went wrong" "")
                               = false) in H
             end).
      + change (step_key "Something went wrong" "")
          with "Something went wrong".
        erewrite h_finish_open; [|done|apply lookup_insert_eq|done]. simpl.
        split; [done|]. by rewrite !lookup_insert_ne.
      + change (step_key "Something went wrong" "")
          with "Something went wrong".
        erewrite h_finish_open; [|done|apply lookup_insert_eq|done]. simpl.
        split; [done|]. by rewrite !lookup_insert_ne. }
  destruct Hfe as [Hf' Hk']. split; [done|].
  destruct (run_frozen _ ops Hf') as (_ & _ & -> & _). done.
Qed.

(** *** Log lines *)

Lemma logs_of_app r (ws1 ws2 : list write) :
  logs_of r (ws1 ++ ws2) = logs_of r ws1 ++ logs_of r ws2.
Proof. apply omap_app. Qed.

(** One logging call on an open step of a job that is not fatal. *)
Lemma invoke_logging s k st c line :
  fatal s = false -> steps s !! k = Some st ->
  open_status (step_status st) = true -> line_of c = Some line ->
  invoke E (Handler k) c s
  = (Return RUndefined,
     State (listening s) (proto_status s) false (finished s)
       (if is_warn c then <[k := with_hasWarning true st]> (steps s)
        else steps s)
       (handler s) (pushed s)
       (writes s
        ++ [PushLog (firebaseRef st) line; SetLastUpdate (clock E (ticks s))])
       (watchers s) (events s) (posts s) (S (ticks s))).
Proof.
  intros Hf Hk Hopen Hline.
  destruct c; try done; simpl in *; simplify_eq;
    unfold_h; rewrite Hf; unfold_m; rewrite Hk; simpl; rewrite Hopen; simpl;
    rewrite Hf, <- ?app_assoc, ?(alter_Some _ _ st) by done; done.
Qed.

Lemma logging_run cs : forall s k st,
  fatal s = false -> steps s !! k = Some st ->
  open_status (step_status st) = true ->
  Forall (fun c => is_Some (line_of c)) cs ->
  fatal (run E (Invoke (Handler k) <$> cs) s) = false
  /\ finished (run E (Invoke (Handler k) <$> cs) s) = finished s
  /\ handler (run E (Invoke (Handler k) <$> cs) s) = handler s
  /\ pushed (run E (Invoke (Handler k) <$> cs) s) = pushed s
  /\ events (run E (Invoke (Handler k) <$> cs) s) = events s
  /\ ticks (run E (Invoke (Handler k) <$> cs) s) = ticks s + length cs
  /\ steps (run E (Invoke (Handler k) <$> cs) s)
     = <[k := with_hasWarning (hasWarning st || existsb is_warn cs) st]>
         (steps s)
  /\ logs_of (firebaseRef st) (writes (run E (Invoke (Handler k) <$> cs) s))
     = logs_of (firebaseRef st) (writes s) ++ omap line_of cs
  /\ (forall r, r <> firebaseRef st ->
      logs_of r (writes (run E (Invoke (Handler k) <$> cs) s))
      = logs_of r (writes s)).
Proof.
  induction cs as [ | c cs IH]; intros s k st Hf Hk Hopen Hcs.
  { simpl. rewrite orb_false_r, app_nil_r.
    repeat (split; [done || lia|]). split; [|done].
    rewrite insert_id; [done|]. rewrite Hk. by destruct st. }
  apply Forall_cons in Hcs as [[line Hline] Hcs].
  change (run E (Invoke (Handler k) <$> c :: cs) s)
    with (run E (Invoke (Handler k) <$> cs) (invoke E (Handler k) c s).2).
  rewrite (invoke_logging s k st c line) by done. cbn [snd].
  match goal with
  | |- context [run E _ ?s1] =>
      destruct (IH s1 k (if is_warn c then with_hasWarning true st else st))
        as (H1 & H2 & H3 & H4 & H5 & H6 & H7 & H8 & H9);
        [done| |by destruct (is_warn c)|done|]
  end.
  { simpl. destruct (is_warn c); [by rewrite lookup_insert_eq|done]. }
  rewrite H1, H2, H3, H4, H5, H6, H7. simpl.
  assert (Href : firebaseRef (if is_warn c then with_hasWarning true st
                              else st) = firebaseRef st)
    by (by destruct (is_warn c)).
  rewrite Href in H8, H9.
  repeat (split; [done || lia|]). split; [|split].
  - destruct (is_warn c); simpl.
    + rewrite insert_insert_eq. by rewrite orb_true_r.
    + done.
  - rewrite H8. simpl. rewrite logs_of_app. simpl. rewrite Hline.
    unfold logs_of at 2. simpl. rewrite decide_True by done.
    by rewrite <- app_assoc.
  - intros r Hr. rewrite (H9 r Hr). simpl. rewrite logs_of_app.
    unfold logs_of at 2. simpl. rewrite decide_False by done.
    by rewrite app_nil_r.
Qed.

(** X18.  The lines that [write], [debug], [info] and [warn] send for an open
    step of a job that is not fatal reach the step's entry in the order
    of the calls, each in its form ([write] as given, [debug] and [info]
    with a line end, [warn] in yellow), and reach no other entry.  The
    calls leave the step's status alone, set [hasWarning] when one of
    them is a [warn], emit nothing and read the clock once each. *)
Theorem log_lines_in_call_order s k st cs :
  fatal s = false -> steps s !! k = Some st ->
  open_status (step_status st) = true ->
  Forall (fun c => is_Some (line_of c)) cs ->
  logs_of (firebaseRef st) (writes (run E (Invoke (Handler k) <$> cs) s))
  = logs_of (firebaseRef st) (writes s) ++ omap line_of cs
  /\ (forall r, r <> firebaseRef st ->
      logs_of r (writes (run E (Invoke (Handler k) <$> cs) s))
      = logs_of r (writes s))
  /\ steps (run E (Invoke (Handler k) <$> cs) s) !! k
     = Some (with_hasWarning (hasWarning st || existsb is_warn cs) st)
  /\ events (run E (Invoke (Handler k) <$> cs) s) = events s
  /\ ticks (run E (Invoke (Handler k) <$> cs) s) = ticks s + length cs.
Proof.
  intros Hf Hk Hopen Hcs.
  destruct (logging_run cs s k st Hf Hk Hopen Hcs)
    as (_ & _ & _ & _ & H5 & H6 & H7 & H8 & H9).
  repeat (split; [done|]). split; [|done].
  by rewrite H7, lookup_insert_eq.
Qed.

(** *** The life of a step *)

Lemma run_app ops1 ops2 s :
  run E (ops1 ++ ops2) s = run E ops2 (run E ops1 s).
Proof. unfold run. apply foldl_app. Qed.

(** X19.  A whole life on an open job: [create] of a step under a new key
    that names nothing the step table inherits from [Object.prototype],
    [start], any logging calls, then [finish(err, skip)].  The step ends
    with the status that [finish] resolves from [err], [skip] and
    whether one of the calls was a [warn]; its entry holds the lines of
    the calls in order, followed by the red line of a truthy [err];
    the handler variable is cleared, nothing is emitted and neither flag
    moves. *)
Theorem step_life s nm i ev cs err skip :
  fatal s = false -> finished s = false ->
  steps s !! step_key nm i = None -> inherited s (step_key nm i) = false ->
  Forall (fun c => is_Some (line_of c)) cs ->
  exists fin,
    steps (run E (Create nm i ev
                  :: Invoke (Handler (step_key nm i)) Start
                  :: (Invoke (Handler (step_key nm i)) <$> cs)
                  ++ [Invoke (Handler (step_key nm i)) (Finish err skip)]) s)
      !! step_key nm i
    = Some (Step nm i (Some (creation_time E s))
              (resolve err skip (existsb is_warn cs)) (existsb is_warn cs)
              (Some fin) (StepRef (pushed s)))
    /\ logs_of (StepRef (pushed s))
         (writes (run E (Create nm i ev
                  :: Invoke (Handler (step_key nm i)) Start
                  :: (Invoke (Handler (step_key nm i)) <$> cs)
                  ++ [Invoke (Handler (step_key nm i)) (Finish err skip)]) s))
       = logs_of (StepRef (pushed s)) (writes s)
         ++ omap line_of cs
         ++ match err with Some e => [red e] | None => [] end
    /\ handler (run E (Create nm i ev
                  :: Invoke (Handler (step_key nm i)) Start
                  :: (Invoke (Handler (step_key nm i)) <$> cs)
                  ++ [Invoke (Handler (step_key nm i)) (Finish err skip)]) s)
       = None
    /\ events (run E (Create nm i ev
                  :: Invoke (Handler (step_key nm i)) Start
                  :: (Invoke (Handler (step_key nm i)) <$> cs)
                  ++ [Invoke (Handler (step_key nm i)) (Finish err skip)]) s)
       = events s
    /\ fatal (run E (Create nm i ev
                  :: Invoke (Handler (step_key nm i)) Start
                  :: (Invoke (Handler (step_key nm i)) <$> cs)
                  ++ [Invoke (Handler (step_key nm i)) (Finish err skip)]) s)
       = false
    /\ finished (run E (Create nm i ev
                  :: Invoke (Handler (step_key nm i)) Start
                  :: (Invoke (Handler (step_key nm i)) <$> cs)
                  ++ [Invoke (Handler (step_key nm i)) (Finish err skip)]) s)
       = false.
Proof.
  intros Hf Hfin Hk Hi Hcs.
  set (k := step_key nm i) in *.
  change (run E (Create nm i ev :: Invoke (Handler k) Start
                 :: (Invoke (Handler k) <$> cs)
                 ++ [Invoke (Handler k) (Finish err skip)]) s)
    with (run E ((Invoke (Handler k) <$> cs)
                 ++ [Invoke (Handler k) (Finish err skip)])
            (invoke E (Handler k) Start (create E nm i ev s).2).2).
  rewrite run_app. unfold k in *. rewrite (create_new E s nm i ev) by done.
  cbn [snd]. fold k.
  set (st0 := Step nm i (Some (creation_time E s)) PENDING false None
                (StepRef (pushed s))).
  match goal with
  | |- context [invoke E (Handler k) Start ?s1] =>
      assert (Hstart : invoke E (Handler k) Start s1
        = (Return RUndefined,
           State (listening s1) (proto_status s1) false (finished s1)
             (<[k := with_status RUNNING st0]> (steps s1))
             (handler s1) (pushed s1) (writes s1 ++ [SetJobStatus RUNNING])
             (watchers s1) (events s1) (posts s1) (ticks s1)))
  end.
  { simpl. unfold h_start. simpl. unfold_m. simpl.
    rewrite lookup_insert_eq. simpl.
    by rewrite (alter_Some _ _ st0) by apply lookup_insert_eq. }
  rewrite Hstart. cbn [snd]. simpl.
  match goal with
  | |- context [run E (Invoke (Handler k) <$> cs) ?s2] =>
      destruct (logging_run cs s2 k (with_status RUNNING st0))
        as (H1 & H2 & H3 & H4 & H5 & H6 & H7 & H8 & H9);
        [done|apply lookup_insert_eq|done|done|];
      set (s3 := run E (Invoke (Handler k) <$> cs) s2) in *
  end.
  simpl in *.
  assert (Hk3 : steps s3 !! k
                = Some (with_hasWarning (existsb is_warn cs)
                          (with_status RUNNING st0)))
    by (by rewrite H7, lookup_insert_eq).
  rewrite (h_finish_open E s3 k _ err skip H1 Hk3) by done.
  simpl. exists (seconds (clock E (ticks s3))).
  rewrite lookup_insert_eq. split; [done|]. split.
  - rewrite logs_of_app, H8. unfold finish_writes. simpl.
    rewrite !logs_of_app. simpl.
    rewrite <- !app_assoc. f_equal.
    unfold logs_of. simpl. rewrite app_nil_r. f_equal.
    destruct err; simpl; [by rewrite decide_True|done].
  - by rewrite H5, H2.
Qed.

(** *** Store entries *)

Lemma distinct_refs_same s s' :
  pushed s' = pushed s ->
  (forall k, firebaseRef <$> steps s' !! k = firebaseRef <$> steps s !! k) ->
  distinct_refs s -> distinct_refs s'.
Proof.
  intros Hp Hsame [Hlt Hinj].
  assert (Hback : forall k st', steps s' !! k = Some st' ->
            exists st, steps s !! k = Some st
                       /\ firebaseRef st = firebaseRef st').
  { intros k st' Hk. specialize (Hsame k). rewrite Hk in Hsame.
    destruct (steps s !! k) as [st|]; [|done]. exists st.
    split; [done|]. simpl in Hsame. congruence. }
  split.
  - intros k st' n Hk Hr. destruct (Hback k st' Hk) as (st & Hk0 & Hr0).
    rewrite Hp. apply (Hlt k st n Hk0). congruence.
  - intros k1 k2 st1 st2 Hk1 Hk2 Hr.
    destruct (Hback k1 st1 Hk1) as (st1' & Hk1' & Hr1).
    destruct (Hback k2 st2 Hk2) as (st2' & Hk2' & Hr2).
    apply (Hinj k1 k2 st1' st2' Hk1' Hk2'). congruence.
Qed.

Lemma invoke_refs s h c k :
  firebaseRef <$> steps (invoke E h c s).2 !! k
  = firebaseRef <$> steps s !! k.
Proof.
  destruct (steps s !! k) as [st|] eqn:Hk.
  - destruct (invoke_step_at s h c k st Hk)
      as (st' & -> & (_ & _ & _ & Hr & _) & _). simpl. by rewrite Hr.
  - by rewrite invoke_step_none.
Qed.

Lemma create_distinct_refs s nm i ev :
  distinct_refs s -> distinct_refs (create E nm i ev s).2.
Proof.
  intros Hd. create_cases s nm i ev; try done.
  - apply (distinct_refs_same s); [done| |done]. intros k. simpl.
    destruct (decide (step_key nm i = k)) as [<-|Hne].
    + by rewrite lookup_insert_eq, Hk.
    + by rewrite lookup_insert_ne.
  - destruct Hd as [Hlt Hinj]. split; simpl.
    + intros k st n Hk' Hr.
      destruct (decide (step_key nm i = k)) as [<-|Hne].
      * rewrite lookup_insert_eq in Hk'. simplify_eq. simpl in Hr.
        simplify_eq. lia.
      * rewrite lookup_insert_ne in Hk' by done.
        specialize (Hlt k st n Hk' Hr). lia.
    + intros k1 k2 st1 st2 Hk1 Hk2 Hr.
      destruct (decide (step_key nm i = k1)) as [<-|Hne1];
        destruct (decide (step_key nm i = k2)) as [<-|Hne2]; [done| | |].
      * rewrite lookup_insert_eq in Hk1.
        rewrite lookup_insert_ne in Hk2 by done. simplify_eq. simpl in Hr.
        symmetry in Hr. specialize (Hlt k2 st2 _ Hk2 Hr). lia.
      * rewrite lookup_insert_eq in Hk2.
        rewrite lookup_insert_ne in Hk1 by done. simplify_eq. simpl in Hr.
        specialize (Hlt k1 st1 _ Hk1 Hr). lia.
      * rewrite lookup_insert_ne in Hk1 by done.
        rewrite lookup_insert_ne in Hk2 by done. by eapply Hinj.
Qed.

Lemma init_distinct_refs : distinct_refs (init_state E).
Proof.
  unfold init_state.
  destruct (initializeStepReference E) as [url|]; [|done].
  destruct (String.eqb url ""); [done|]. split; simpl.
  - intros k st n Hk Hr. apply lookup_singleton_Some in Hk as [_ <-]. done.
  - intros k1 k2 st1 st2 Hk1 Hk2 _.
    apply lookup_singleton_Some in Hk1 as [<- _].
    by apply lookup_singleton_Some in Hk2 as [<- _].
Qed.

Lemma run_distinct_refs ops s :
  distinct_refs s -> distinct_refs (run E ops s).
Proof.
  apply (run_lift (fun s s' => distinct_refs s -> distinct_refs s'));
    clear s ops; try done.
  - auto.
  - intros s nm i ev. apply create_distinct_refs.
  - intros s h c. apply distinct_refs_same.
    + by destruct (invoke_frame s h c) as (_ & _ & -> & _).
    + apply invoke_refs.
  - intros s r val. unfold on_value. by repeat case_match.
Qed.

(** X20.  In every state that a job reaches from its initial state, two
    steps kept under different keys have different store entries, and
    a pushed entry is one of those allotted so far: what is written
    through one step's reference never lands in another step's record. *)
Theorem steps_have_their_own_entries ops k1 k2 st1 st2 :
  steps (run E ops (init_state E)) !! k1 = Some st1 ->
  steps (run E ops (init_state E)) !! k2 = Some st2 ->
  k1 <> k2 ->
  firebaseRef st1 <> firebaseRef st2
  /\ (forall n, firebaseRef st1 = StepRef n ->
      n < pushed (run E ops (init_state E))).
Proof.
  intros Hk1 Hk2 Hne.
  destruct (run_distinct_refs ops (init_state E) init_distinct_refs)
    as [Hlt Hinj].
  split.
  - intros Hr. apply Hne. exact (Hinj k1 k2 st1 st2 Hk1 Hk2 Hr).
  - intros n Hr. exact (Hlt k1 st1 n Hk1 Hr).
Qed.

(** *** The creation time of a new step *)

(** X22.  With an [initializeStepReference] the job starts with the step
    ["Initializing Process"], so it never has no step: in every state it
    reaches, a step made under a new key (one that names nothing the
    step table inherits from [Object.prototype]) gets the clock's
    reading as its creation time, and [firstStepCreationTime] is never
    used. *)
Theorem initializing_step_disables_override url ops nm i ev :
  initializeStepReference E = Some url -> url <> "" ->
  fatal (run E ops (init_state E)) = false ->
  finished (run E ops (init_state E)) = false ->
  steps (run E ops (init_state E)) !! step_key nm i = None ->
  inherited (run E ops (init_state E)) (step_key nm i) = false ->
  creationTimeStamp <$>
    steps (create E nm i ev (run E ops (init_state E))).2 !! step_key nm i
  = Some (Some (seconds (clock E (ticks (run E ops (init_state E)))))).
Proof.
  intros Hurl Hne Hf Hfin Hk Hi.
  assert (Hinit : exists st0,
            steps (init_state E) !! "Initializing Process" = Some st0).
  { unfold init_state. rewrite Hurl.
    rewrite (proj2 (String.eqb_neq url "") Hne). simpl.
    eexists. apply lookup_singleton_eq. }
  destruct Hinit as (st0 & Hk0).
  destruct (run_persists ops (init_state E) _ st0 Hk0) as (st1 & Hk1 & _).
  rewrite (create_new E _ nm i ev) by done. simpl.
  rewrite lookup_insert_eq. simpl. unfold creation_time.
  rewrite bool_decide_eq_false_2; [by repeat case_match|].
  intros Hempty. by rewrite Hempty in Hk1.
Qed.

(** *** What creating a step again leaves alone *)

Lemma recreate_existing_quiet cs k :
  Forall (fun a => args_key a = k) cs ->
  forall s st,
    fatal s = false -> finished s = false -> steps s !! k = Some st ->
    posts (run E (creates cs) s) = posts s
    /\ watchers (run E (creates cs) s) = watchers s
    /\ events (run E (creates cs) s) = events s
    /\ ticks (run E (creates cs) s) = ticks s.
Proof.
  induction 1 as [ | [[nm i] ev] cs Hc Hcs IH]; intros s st Hf Hfin Hk;
    [done|].
  unfold args_key in Hc. simpl in Hc. subst k.
  rewrite run_creates_cons, (create_existing E s nm i ev st) by done.
  cbn [snd].
  match goal with
  | |- context [run E (creates cs) ?s1] =>
      destruct (IH s1 (with_status PENDING st)) as (-> & -> & -> & ->);
        [done|done|apply lookup_insert_eq|done]
  end.
Qed.

(** X23.  On an open job, a run of [create] calls with the same key, one
    that names nothing the step table inherits from [Object.prototype],
    reports the new step and arms its watcher at most once: when the
    step was not there, the first call posts the event (if it was given
    an [eventReporting]) and arms one watcher, and reads the clock
    once; the calls that find the step post nothing, arm nothing, emit
    nothing and do not read the clock, whatever [eventReporting] they
    are given. *)
Theorem new_step_is_reported_once s k cs :
  fatal s = false -> finished s = false -> inherited s k = false ->
  Forall (fun a => args_key a = k) cs ->
  posts (run E (creates cs) s)
  = posts s
    ++ match steps s !! k, cs with
       | None, (nm, _, Some (url, token)) :: _ => [(url, token, nm)]
       | _, _ => []
       end
  /\ watchers (run E (creates cs) s)
     = watchers s
       ++ match steps s !! k, cs with
          | None, (nm, _, _) :: _ => [(StepRef (pushed s), nm)]
          | _, _ => []
          end
  /\ ticks (run E (creates cs) s)
     = ticks s + match steps s !! k, cs with
                 | None, _ :: _ => 1
                 | _, _ => 0
                 end
  /\ events (run E (creates cs) s) = events s.
Proof.
  intros Hf Hfin Hi Hcs.
  destruct (steps s !! k) as [st|] eqn:Hk.
  - destruct (recreate_existing_quiet cs k Hcs s st Hf Hfin Hk)
      as (-> & -> & -> & ->).
    rewrite !app_nil_r. repeat split; lia.
  - destruct cs as [ | [[nm i] ev] cs].
    { simpl. rewrite !app_nil_r. repeat split; lia. }
    apply Forall_cons in Hcs as [Hc Hcs]. unfold args_key in Hc.
    simpl in Hc. subst k.
    rewrite run_creates_cons, (create_new E s nm i ev) by done.
    cbn [snd].
    match goal with
    | |- context [run E (creates cs) ?s1] =>
        destruct (recreate_existing_quiet cs (step_key nm i) Hcs s1
                    (Step nm i (Some (creation_time E s)) PENDING false None
                       (StepRef (pushed s))))
          as (-> & -> & -> & ->);
          [done|done|apply lookup_insert_eq|]
    end.
    simpl. repeat split; lia.
Qed.

(** *** Creation and finish times *)

Lemma seconds_mono (t t' : Z) : (t <= t')%Z -> (seconds t <= seconds t')%Z.
Proof.
  intros Hle. unfold seconds.
  destruct (Z.ltb_spec t 0), (Z.ltb_spec t' 0);
    Z.div_mod_to_equations; lia.
Qed.

Lemma invoke_ticks s h c : ticks s <= ticks (invoke E h c s).2.
Proof.
  destruct h as [|k]; [by rewrite invoke_null|].
  destruct c; simpl; try (finish_cases; lia);
    unfold_h; unfold_m;
    destruct (fatal s) eqn:Hf; try done;
    destruct (steps s !! k) as [st|] eqn:Hk; try done; simpl;
    repeat (first [ case_bool_decide | case_match ]; simpl); lia.
Qed.

Lemma create_override_on_first t s nm i ev :
  truthy_time (firstStepCreationTime E) = Some t ->
  override_on_first E t s -> override_on_first E t (create E nm i ev s).2.
Proof.
  intros Ht [Hempty Hs]. create_cases s nm i ev; try done.
  - split; simpl.
    + rewrite <- Hempty. split; intros Heq.
      * apply (f_equal (fun m => m !! step_key nm i)) in Heq.
        by rewrite lookup_insert_eq in Heq.
      * by rewrite Heq in Hk.
    + intros k st' Hk'.
      destruct (decide (step_key nm i = k)) as [<-|Hne].
      * rewrite lookup_insert_eq in Hk'. simplify_eq.
        exact (Hs _ _ Hk).
      * rewrite lookup_insert_ne in Hk' by done. exact (Hs _ _ Hk').
  - split; simpl.
    + split; [|done]. intros Heq.
      apply (f_equal (fun m => m !! step_key nm i)) in Heq.
      by rewrite lookup_insert_eq in Heq.
    + intros k st' Hk'.
      destruct (decide (step_key nm i = k)) as [<-|Hne].
      * rewrite lookup_insert_eq in Hk'. simplify_eq. simpl.
        unfold creation_time. rewrite Ht.
        destruct (pushed s) as [ | n] eqn:Hp.
        -- left. by rewrite bool_decide_eq_true_2 by (by apply Hempty).
        -- right. exists n, (ticks s). split; [done|]. split; [lia|].
           rewrite bool_decide_eq_false_2; [done|].
           intros Heq. apply Hempty in Heq. lia.
      * rewrite lookup_insert_ne in Hk' by done.
        destruct (Hs k st' Hk') as [?|(n & m & ? & ? & ?)]; [by left|].
        right. exists n, m. split; [done|]. split; [lia|done].
Qed.

Lemma invoke_override_on_first t s h c :
  override_on_first E t s -> override_on_first E t (invoke E h c s).2.
Proof.
  intros [Hempty Hs]. split.
  - destruct (invoke_frame s h c) as (_ & _ & -> & _).
    rewrite <- Hempty. rewrite <- !dom_empty_iff_L. by rewrite invoke_dom.
  - intros k st' Hk'.
    destruct (steps s !! k) as [st|] eqn:Hk;
      [|by rewrite invoke_step_none in Hk'].
    destruct (invoke_step_at s h c k st Hk)
      as (st2 & Hk2 & (_ & _ & Hc & Hr & _) & _).
    simplify_eq. rewrite Hc, Hr.
    destruct (Hs k st Hk) as [?|(n & m & ? & ? & ?)]; [by left|].
    right. exists n, m. split; [done|]. split; [|done].
    pose proof (invoke_ticks s h c). lia.
Qed.

(** X21.  Which step the override of the first creation time goes to.  On
    a job built without [initializeStepReference] and with a truthy
    [firstStepCreationTime], in every state that the job reaches the
    step that holds the first entry pushed has the override as its
    creation time, and every other step has a reading of the clock
    that the job took, in seconds: the override goes to the first step
    made and to no later one, whatever was called in between, calls
    that threw included. *)
Theorem override_goes_to_first_entry t ops k st :
  initializeStepReference E = None ->
  truthy_time (firstStepCreationTime E) = Some t ->
  steps (run E ops (init_state E)) !! k = Some st ->
  (firebaseRef st = StepRef 0 -> creationTimeStamp st = Some t)
  /\ (firebaseRef st <> StepRef 0 ->
      exists m, m < ticks (run E ops (init_state E))
                /\ creationTimeStamp st = Some (seconds (clock E m))).
Proof.
  intros Hinit Ht Hk.
  assert (Hrun : override_on_first E t (run E ops (init_state E))).
  { assert (H0 : override_on_first E t (init_state E)).
    { unfold init_state. rewrite Hinit. by split. }
    revert H0.
    apply (run_lift (fun s s' => override_on_first E t s ->
                                 override_on_first E t s')); try done.
    - auto.
    - intros s nm i ev. by apply create_override_on_first.
    - intros s h c. apply invoke_override_on_first.
    - intros s r val. unfold on_value. by repeat case_match. }
  destruct Hrun as [_ Hs].
  destruct (Hs k st Hk) as [[Hr Hc]|(n & m & Hr & Hm & Hc)].
  - split; [done|]. by intros Hne.
  - split; [by rewrite Hr|]. intros _. by exists m.
Qed.

Lemma run_clock_stamped ops s :
  truthy_time (firstStepCreationTime E) = None ->
  clock_stamped E s ->
  ticks s <= ticks (run E ops s) /\ clock_stamped E (run E ops s).
Proof.
  intros Hno.
  enough (Hrun : ticks s <= ticks (run E ops s)
                 /\ (clock_stamped E s -> clock_stamped E (run E ops s)))
    by (intros Hs; split; [apply Hrun|by apply Hrun]).
  apply (run_lift (fun s s' => ticks s <= ticks s'
           /\ (clock_stamped E s -> clock_stamped E s'))); clear s ops.
  - done.
  - intros s1 s2 s3 [H12 Hc12] [H23 Hc23]. split; [lia|auto].
  - intros s nm i ev. create_cases s nm i ev; try done.
    + split; [done|]. intros Hs k st' t Hk' Ht. simpl in *.
      destruct (decide (step_key nm i = k)) as [<-|Hne].
      * rewrite lookup_insert_eq in Hk'. simplify_eq.
        by apply (Hs (step_key nm i) st t).
      * rewrite lookup_insert_ne in Hk' by done. by apply (Hs k st' t).
    + split; [lia|]. intros Hs k st' t Hk' Ht. simpl in *.
      destruct (decide (step_key nm i = k)) as [<-|Hne].
      * rewrite lookup_insert_eq in Hk'. simplify_eq. simpl in Ht.
        simplify_eq. exists (ticks s). split; [lia|].
        unfold creation_time. by rewrite Hno.
      * rewrite lookup_insert_ne in Hk' by done.
        destruct (Hs k st' t Hk' Ht) as (n & ? & ?). exists n.
        split; [lia|done].
  - intros s h c. split; [apply invoke_ticks|].
    intros Hs k st' t Hk' Ht.
    destruct (steps s !! k) as [st|] eqn:Hk.
    + destruct (invoke_step_at s h c k st Hk)
        as (st2 & Hk2 & (_ & _ & Hc & _) & _).
      simplify_eq. rewrite Hc in Ht.
      destruct (Hs k st t Hk Ht) as (n & ? & ?). exists n.
      split; [|done]. pose proof (invoke_ticks s h c). lia.
    + by rewrite invoke_step_none in Hk'.
  - intros s. by split.
  - intros s. by split.
  - intros s r val. unfold on_value. by repeat case_match.
  - intros s evn. by split.
Qed.

(** X24.  With no [firstStepCreationTime] and a clock that never goes back, a
    step never finishes before it was created: in every state that the
    job reaches, a [finish] that goes through sets a [finishTimeStamp]
    that is not below the step's [creationTimeStamp]. *)
Theorem finish_not_before_creation ops k st t err skip :
  truthy_time (firstStepCreationTime E) = None ->
  (forall n m, n <= m -> (clock E n <= clock E m)%Z) ->
  fatal (run E ops (init_state E)) = false ->
  steps (run E ops (init_state E)) !! k = Some st ->
  open_status (step_status st) = true ->
  creationTimeStamp st = Some t ->
  exists st' t',
    steps (invoke E (Handler k) (Finish err skip)
             (run E ops (init_state E))).2 !! k = Some st'
    /\ creationTimeStamp st' = Some t
    /\ finishTimeStamp st' = Some t'
    /\ (t <= t')%Z.
Proof.
  intros Hno Hmono Hf Hk Hopen Ht.
  assert (Hinit : clock_stamped E (init_state E)).
  { intros k0 st0 t0 Hk0 Ht0. unfold init_state in Hk0. simpl in Hk0.
    destruct (initializeStepReference E) as [url|]; [|done].
    destruct (String.eqb url ""); [done|].
    apply lookup_singleton_Some in Hk0 as [_ <-]. done. }
  destruct (run_clock_stamped ops _ Hno Hinit) as [_ Hs].
  destruct (Hs k st t Hk Ht) as (n & Hn & ->).
  simpl. rewrite (h_finish_open E _ k st) by done. simpl.
  eexists _, _. rewrite lookup_insert_eq. split; [done|]. simpl.
  split; [done|]. split; [done|].
  apply seconds_mono, Hmono. lia.
Qed.

(** *** Keys that the step table inherits *)

Lemma invoke_proto_status s h c :
  proto_status (invoke E h c s).2 = proto_status s.
Proof.
  destruct h as [|k]; [by rewrite invoke_null|].
  destruct c; simpl; try (by finish_cases);
    unfold_h; unfold_m;
    destruct (fatal s) eqn:Hf; try done;
    destruct (steps s !! k) as [st|] eqn:Hk; try done; simpl;
    repeat (first [ case_bool_decide | case_match ]; simpl); done.
Qed.

Lemma inherited_mono s s' k :
  (proto_status s = true -> proto_status s' = true) ->
  inherited s k = true -> inherited s' k = true.
Proof.
  unfold inherited. intros Hmono.
  destruct (bool_decide (k ∈ prototype_keys)); [done|]. simpl.
  destruct (proto_status s); [|done]. by rewrite Hmono.
Qed.

Lemma run_inherited ops s k :
  steps s !! k = None -> inherited s k = true ->
  steps (run E ops s) !! k = None /\ inherited (run E ops s) k = true.
Proof.
  intros Hk Hi.
  enough (Hrun : steps s !! k = None /\ inherited s k = true ->
                 steps (run E ops s) !! k = None
                 /\ inherited (run E ops s) k = true) by auto.
  clear Hk Hi.
  apply (run_lift (fun s s' => steps s !! k = None /\ inherited s k = true ->
           steps s' !! k = None /\ inherited s' k = true)); clear s ops;
    try done.
  - auto.
  - intros s nm i ev [Hk Hi]. create_cases s nm i ev; try done.
    + split; [|done]. rewrite lookup_insert_ne; [done|congruence].
    + split; [|done]. rewrite lookup_insert_ne; [done|congruence].
    + split; [done|]. by apply (inherited_mono s).
  - intros s h c [Hk Hi]. split; [by apply invoke_step_none|].
    apply (inherited_mono s); [|done]. by rewrite invoke_proto_status.
  - intros s r val. unfold on_value. by repeat case_match.
Qed.

(** X25.  A key that names something the step table inherits from
    [Object.prototype] never gets a step.  If such a key has no step
    and [create] finds an inherited value under it, then after every
    run it still has no step and the value is still found, and on an
    open job every [create] with that key throws a [TypeError] to its
    caller and leaves the job as it was: no step, no entry pushed,
    nothing written or posted, no watcher, the clock not read, and the
    handler variable still the one of the step before. *)
Theorem inherited_key_never_gets_a_step s k ops :
  steps s !! k = None -> inherited s k = true ->
  steps (run E ops s) !! k = None
  /\ inherited (run E ops s) k = true
  /\ (fatal (run E ops s) = false -> finished (run E ops s) = false ->
      forall nm i ev, step_key nm i = k ->
        (exists msg,
           (create E nm i ev (run E ops s)).1 = Throw (TypeError msg))
        /\ steps (create E nm i ev (run E ops s)).2 = steps (run E ops s)
        /\ handler (create E nm i ev (run E ops s)).2
           = handler (run E ops s)
        /\ pushed (create E nm i ev (run E ops s)).2 = pushed (run E ops s)
        /\ writes (create E nm i ev (run E ops s)).2 = writes (run E ops s)
        /\ watchers (create E nm i ev (run E ops s)).2
           = watchers (run E ops s)
        /\ posts (create E nm i ev (run E ops s)).2 = posts (run E ops s)
        /\ ticks (create E nm i ev (run E ops s)).2 = ticks (run E ops s)).
Proof.
  intros Hk Hi. destruct (run_inherited ops s k Hk Hi) as [Hk' Hi'].
  split; [done|]. split; [done|].
  intros Hf Hfin nm i ev <-.
  rewrite (create_inherited E _ nm i ev) by done.
  split; [by eexists|].
  by destruct (String.eqb (step_key nm i) "__proto__").
Qed.

End TaskLoggerRuns.

(** ** More runs of the example job *)

Section RunScenarios.
Import TaskLogger.

Lemma step_persists_witness :
  steps finished_build !! "build"
  = Some (Step "build" "" (Some 1700000000%Z) SUCCESS false
            (Some 1700000001%Z) (StepRef 0))
  /\ exists st',
       steps (run example_env
                [Create "build" "" None;
                 Invoke (Handler "build") ResetCreationTimeStamp]
                finished_build) !! "build" = Some st'
       /\ creationTimeStamp st' = Some 1700000000%Z
       /\ firebaseRef st' = StepRef 0.
Proof.
  split; [reflexivity|].
  destruct (step_persists example_env finished_build "build"
              (Step "build" "" (Some 1700000000%Z) SUCCESS false
                 (Some 1700000001%Z) (StepRef 0))
              [Create "build" "" None;
               Invoke (Handler "build") ResetCreationTimeStamp] eq_refl)
    as (st' & Hk & _ & _ & Hc & Hr & _).
  exists st'. split; [exact Hk|]. split; [exact Hc|exact Hr].
Defined.

Lemma warning_is_never_cleared_witness :
  steps warned_job !! "build"
  = Some (Step "build" "" (Some 1700000000%Z) PENDING true None (StepRef 0))
  /\ exists st',
       steps (run example_env
                [Invoke (Handler "build") (Finish None false);
                 Create "build" "" None] warned_job) !! "build"
       = Some st'
       /\ hasWarning st' = true.
Proof.
  split; [reflexivity|].
  destruct (warning_is_never_cleared example_env warned_job "build"
              (Step "build" "" (Some 1700000000%Z) PENDING true None
                 (StepRef 0))
              [Invoke (Handler "build") (Finish None false);
               Create "build" "" None] eq_refl eq_refl)
    as (st' & Hk & Hw & _).
  exists st'. split; [exact Hk|exact Hw].
Defined.

Lemma fatal_freezes_witness :
  fatal aborted_job = true
  /\ writes (run example_env
               [Create "deploy" "" None; Invoke (Handler "build") (Write "x");
                JobFinish None; FatalError (Some "again")] aborted_job)
     = writes aborted_job.
Proof.
  split; [reflexivity|].
  destruct (fatal_freezes example_env aborted_job
              [Create "deploy" "" None; Invoke (Handler "build") (Write "x");
               JobFinish None; FatalError (Some "again")] eq_refl)
    as (_ & _ & _ & _ & _ & Hw & _).
  exact Hw.
Defined.

Lemma job_finish_idempotent_witness :
  handler warned_job = Some "build"
  /\ finish example_env (Some "late")
       (finish example_env None warned_job).2
     = (Return (), (finish example_env None warned_job).2).
Proof.
  split; [reflexivity|].
  apply job_finish_idempotent.
  intros k [= <-]. eexists. split; reflexivity.
Defined.

Lemma finished_closes_create_witness :
  finished finished_job = true
  /\ create example_env "deploy" "" None
       (run example_env [Invoke NullHandle (Write "x")] finished_job)
     = (Return NullHandle,
        run example_env [Invoke NullHandle (Write "x")] finished_job).
Proof.
  split; [reflexivity|].
  exact (proj1 (proj2 (finished_closes_create example_env finished_job
    [Invoke NullHandle (Write "x")] "deploy" "" None eq_refl))).
Defined.

Lemma status_moves_forward_witness :
  steps warned_job !! "build"
  = Some (Step "build" "" (Some 1700000000%Z) PENDING true None (StepRef 0))
  /\ exists st',
       steps (run example_env
                [Invoke (Handler "build") Start; Create "deploy" "" None;
                 JobFinish None] warned_job) !! "build" = Some st'
       /\ transition PENDING (step_status st').
Proof.
  split; [reflexivity|].
  assert (Hno : Forall (fun o => recreates "build" o = false)
                  [Invoke (Handler "build") Start; Create "deploy" "" None;
                   JobFinish None]).
  { repeat constructor. }
  exact (status_moves_forward example_env warned_job "build"
           (Step "build" "" (Some 1700000000%Z) PENDING true None (StepRef 0))
           _ eq_refl Hno).
Defined.

Lemma start_only_from_pending_witness :
  fatal finished_build = false /\ listening finished_build = false
  /\ invoke example_env (Handler "build") Start finished_build
     = (Throw (EmittedError
           "progress-logs 'start' handler was triggered when the step status is: %s"
           (Some "success")),
        (emit (ErrorEvent
           "progress-logs 'start' handler was triggered when the step status is: %s"
           (Some "success")) finished_build).2).
Proof.
  split; [reflexivity|]. split; [reflexivity|].
  apply (proj2 (start_only_from_pending example_env finished_build "build"
    (Step "build" "" (Some 1700000000%Z) SUCCESS false
       (Some 1700000001%Z) (StepRef 0)) eq_refl eq_refl)).
  discriminate.
Defined.

Lemma on_value_fires_once_witness :
  ((StepRef 0, "deploy") ∉ watchers warned_job)
  /\ on_value (StepRef 0) (Some "deploy") warned_job = (Return (), warned_job).
Proof.
  assert (Hnot : (StepRef 0, "deploy") ∉ watchers warned_job).
  { intros Hin. apply list_elem_of_In in Hin. simpl in Hin.
    destruct Hin as [[=]|[]]. }
  split; [exact Hnot|].
  exact (proj1 (proj2 (on_value_fires_once warned_job (StepRef 0)
    (Some "deploy"))) "deploy" eq_refl Hnot).
Defined.

Lemma addErrorMessage_ignores_latches_witness :
  fatal aborted_job = true
  /\ logs_of (StepRef 0)
       (writes (addErrorMessageToEndOfSteps "runner died" [StepRef 0]
                  aborted_job).2)
     = logs_of (StepRef 0) (writes aborted_job) ++ [red "runner died"].
Proof.
  split; [reflexivity|].
  exact (proj1 (proj2 (addErrorMessage_ignores_latches "runner died"
    [StepRef 0] aborted_job)) (StepRef 0) eq_refl).
Defined.

Lemma job_finish_closes_witness :
  handler warned_job = Some "build"
  /\ step_status <$> steps (finish example_env None warned_job).2 !! "build"
     = Some WARNING.
Proof.
  split; [reflexivity|].
  assert (Hwf : wf warned_job).
  { intros k [= <-]. eexists. split; reflexivity. }
  destruct (job_finish_closes example_env warned_job None Hwf) as [_ Hopen].
  destruct (Hopen eq_refl) as (_ & _ & _ & _ & Hstep & _).
  exact (Hstep "build"
    (Step "build" "" (Some 1700000000%Z) PENDING true None (StepRef 0))
    eq_refl eq_refl).
Defined.

Lemma fatalError_leaves_other_steps_witness :
  handler (run example_env [Create "deploy" "" None] warned_job)
  = Some "deploy"
  /\ steps (run example_env [Invoke (Handler "build") (Finish None false)]
              (fatalError example_env (Some "boom")
                 (run example_env [Create "deploy" "" None] warned_job)).2)
       !! "build"
     = Some (Step "build" "" (Some 1700000000%Z) PENDING true None
               (StepRef 0)).
Proof.
  split; [reflexivity|].
  assert (Hwf : wf (run example_env [Create "deploy" "" None] warned_job)).
  { intros k [= <-]. eexists. split; reflexivity. }
  apply (fatalError_leaves_other_steps example_env
           (run example_env [Create "deploy" "" None] warned_job)
           "boom" "build" _ _ Hwf); try reflexivity; discriminate.
Defined.

Lemma log_lines_in_call_order_witness :
  fatal warned_job = false
  /\ logs_of (StepRef 0)
       (writes (run example_env
                  (Invoke (Handler "build")
                     <$> [Write "compiling"; Info "done"])
                  warned_job))
     = [yellow "disk space low"; "compiling"; "done" +:+ CRLF].
Proof.
  split; [reflexivity|].
  assert (Hcs : Forall (fun c => is_Some (line_of c))
                  [Write "compiling"; Info "done"]).
  { repeat constructor; by eexists. }
  exact (proj1 (log_lines_in_call_order example_env warned_job "build"
    (Step "build" "" (Some 1700000000%Z) PENDING true None (StepRef 0))
    [Write "compiling"; Info "done"] eq_refl eq_refl eq_refl Hcs)).
Defined.

Lemma step_life_witness :
  steps finished_build !! step_key "deploy" "" = None
  /\ exists fin,
       steps (run example_env
                (Create "deploy" "" None
                 :: Invoke (Handler "deploy") Start
                 :: (Invoke (Handler "deploy") <$> [Warn "disk space low"])
                 ++ [Invoke (Handler "deploy") (Finish None false)])
                finished_build) !! "deploy"
       = Some (Step "deploy" "" (Some 1700000003%Z) WARNING true (Some fin)
                 (StepRef 1)).
Proof.
  split; [reflexivity|].
  assert (Hcs : Forall (fun c => is_Some (line_of c)) [Warn "disk space low"]).
  { repeat constructor; by eexists. }
  destruct (step_life example_env finished_build "deploy" "" None
              [Warn "disk space low"] None false eq_refl eq_refl eq_refl
              eq_refl Hcs)
    as (fin & Hstep & _).
  exists fin. exact Hstep.
Defined.

Lemma steps_have_their_own_entries_witness :
  firebaseRef
    (Step "build" "" (Some 1700000000%Z) PENDING false None (StepRef 0))
  <> firebaseRef
       (Step "deploy" "" (Some 1700000001%Z) PENDING false None (StepRef 1)).
Proof.
  apply (steps_have_their_own_entries example_env
           [Create "build" "" None; Create "deploy" "" None]
           "build" "deploy"); [reflexivity|reflexivity|discriminate].
Defined.

Lemma override_goes_to_first_entry_witness :
  steps (run stamped_env
           [Create "__proto__" "" None; Create "build" "" None;
            Create "deploy" "" None] (init_state stamped_env)) !! "deploy"
  = Some (Step "deploy" "" (Some 1700000001%Z) PENDING false None (StepRef 1))
  /\ exists m,
       m < ticks (run stamped_env
                    [Create "__proto__" "" None; Create "build" "" None;
                     Create "deploy" "" None] (init_state stamped_env))
       /\ Some 1700000001%Z = Some (seconds (clock stamped_env m)).
Proof.
  split; [reflexivity|].
  apply (proj2 (override_goes_to_first_entry stamped_env 1600000000%Z
           [Create "__proto__" "" None; Create "build" "" None;
            Create "deploy" "" None] "deploy"
           (Step "deploy" "" (Some 1700000001%Z) PENDING false None
              (StepRef 1))
           eq_refl eq_refl eq_refl)).
  discriminate.
Defined.

Lemma initializing_step_disables_override_witness :
  creationTimeStamp <$>
    steps (create (Env "J1" (Some 1600000000%Z) "https://store.example/"
                     true (Some "https://store.example/J1/steps/init")
                     (fun _ => 1700000000400%Z))
             "build" "" None
             (run (Env "J1" (Some 1600000000%Z) "https://store.example/"
                     true (Some "https://store.example/J1/steps/init")
                     (fun _ => 1700000000400%Z))
                []
                (init_state
                   (Env "J1" (Some 1600000000%Z) "https://store.example/"
                      true (Some "https://store.example/J1/steps/init")
                      (fun _ => 1700000000400%Z))))).2
      !! step_key "build" ""
  = Some (Some 1700000000%Z).
Proof.
  apply (initializing_step_disables_override
           (Env "J1" (Some 1600000000%Z) "https://store.example/"
              true (Some "https://store.example/J1/steps/init")
              (fun _ => 1700000000400%Z))
           "https://store.example/J1/steps/init" [] "build" "" None);
    (reflexivity || discriminate).
Defined.

Lemma new_step_is_reported_once_witness :
  fatal finished_build = false /\ finished finished_build = false
  /\ posts (run example_env
              (creates [("deploy", "", Some ("https://hook.example", "secret"));
                        ("deploy", "", Some ("https://hook.example", "secret"))])
              finished_build)
     = [("https://hook.example", "secret", "deploy")].
Proof.
  split; [reflexivity|]. split; [reflexivity|].
  assert (Hkey : Forall (fun a => args_key a = "deploy")
            [("deploy", "", Some ("https://hook.example", "secret"));
             ("deploy", "", Some ("https://hook.example", "secret"))]).
  { repeat constructor. }
  exact (proj1 (new_step_is_reported_once example_env finished_build "deploy"
                  _ eq_refl eq_refl eq_refl Hkey)).
Defined.

Lemma finish_not_before_creation_witness :
  steps (run example_env [Create "build" "" None] (init_state example_env))
    !! "build"
  = Some (Step "build" "" (Some 1700000000%Z) PENDING false None (StepRef 0))
  /\ exists st' t',
       steps (invoke example_env (Handler "build") (Finish None false)
                (run example_env [Create "build" "" None]
                   (init_state example_env))).2 !! "build" = Some st'
       /\ creationTimeStamp st' = Some 1700000000%Z
       /\ finishTimeStamp st' = Some t'
       /\ (1700000000 <= t')%Z.
Proof.
  split; [reflexivity|].
  apply (finish_not_before_creation example_env [Create "build" "" None]
           "build"
           (Step "build" "" (Some 1700000000%Z) PENDING false None
              (StepRef 0)));
    try reflexivity.
  intros n m Hle. simpl. lia.
Defined.

Lemma inherited_key_never_gets_a_step_witness :
  steps (init_state example_env) !! "constructor" = None
  /\ (exists msg,
        (create example_env "build" "constructor" None
           (run example_env [Create "build" "" None]
              (init_state example_env))).1 = Throw (TypeError msg))
  /\ handler (create example_env "build" "constructor" None
                (run example_env [Create "build" "" None]
                   (init_state example_env))).2 = Some "build".
Proof.
  split; [reflexivity|].
  destruct (inherited_key_never_gets_a_step example_env
              (init_state example_env) "constructor"
              [Create "build" "" None] eq_refl eq_refl)
    as (_ & _ & Hthrows).
  destruct (Hthrows eq_refl eq_refl "build" "constructor" None eq_refl)
    as (Hmsg & _ & Hh & _).
  split; [exact Hmsg|exact Hh].
Defined.

End RunScenarios.
